(** * Task manager: the tasks slice and its selectors

    A shallow embedding of [task-manager/src/features/tasks/tasksSlice.ts]:
    the slice state, its six reducers together with the local-storage
    side effects they perform, and the selectors (search, sorting,
    statistics), followed by the properties established about them.  The
    callers in [components/] that compute with the slice are embedded too:
    the filter, search and sort pipeline and the drop handler of
    [TaskList.tsx], and the submit handlers of the two forms.

    Conventions of the embedding.
    - A JavaScript [number] holding an id, an index or a count is a [Z].
    - Text is a [string] of code units; the units covered are those below
      256, read as the Latin-1 range of UTF-16.
    - An array is a [list]; [tasks[index] = v] is list insertion
      [<[index := v]>], only ever performed at an index returned by
      [findIndex].
    - [localStorage] is a finite map from keys to stored items, and every
      [setItem]/[removeItem] call is recorded in a log, so that "nothing was
      written" can be stated.  A stored item keeps the value that was
      serialised, i.e. [JSON.stringify]/[JSON.parse] and
      [toString]/[parseInt] are taken to be inverse on the values the slice
      writes.  A [setItem] call may throw (a full or disabled storage): the
      world says for which contents, key and item it does, and
      [saveToLocalStorage] catches the exception as the source does.
      [getItem] and [removeItem] are taken not to throw. *)

From Stdlib Require Import ZArith Lia Ascii String DecimalString.
From stdpp Require Import base list strings gmap sorting.

Local Open Scope Z_scope.

(** ** Data model *)

Inductive TaskStatus := pending | completed.
Inductive TaskCategory := work | personal | shopping | health | finance | other.
Inductive TaskPriority := high | medium | low.

Record Task := {
  id : Z;
  title : string;
  status : TaskStatus;
  deadline : string;
  category : TaskCategory;
  priority : TaskPriority
}.

(** [Omit<Task, 'id'>], the payload of [addTask]. *)
Record TaskFields := {
  newTitle : string;
  newStatus : TaskStatus;
  newDeadline : string;
  newCategory : TaskCategory;
  newPriority : TaskPriority
}.

(** [Partial<Task> & { id: number }], the payload of [updateTask]: a field
    is either present with a value or absent. *)
Record TaskPatch := {
  patchId : Z;
  patchTitle : option string;
  patchStatus : option TaskStatus;
  patchDeadline : option string;
  patchCategory : option TaskCategory;
  patchPriority : option TaskPriority
}.

Record TasksState := {
  tasks : list Task;
  nextId : Z;
  deletedIds : list Z
}.

#[global] Instance TaskStatus_eq_dec : EqDecision TaskStatus.
Proof. solve_decision. Defined.
#[global] Instance TaskCategory_eq_dec : EqDecision TaskCategory.
Proof. solve_decision. Defined.
#[global] Instance TaskPriority_eq_dec : EqDecision TaskPriority.
Proof. solve_decision. Defined.
#[global] Instance Task_eq_dec : EqDecision Task.
Proof. solve_decision. Defined.

(** ** Local storage *)

Inductive StoredItem :=
  | JsonTasks (ts : list Task)
  | DecimalNumber (n : Z).

Inductive StorageCall :=
  | SetItem (key : string) (item : StoredItem)
  | RemoveItem (key : string)
  | SetItemThrew (key : string) (item : StoredItem).

(** What a reducer runs against: the slice state, the contents of
    [localStorage], the storage calls made so far (oldest first; a
    [setItem] call that threw is logged as [SetItemThrew] and stored
    nothing), and the storage's own behaviour: [setItemThrows contents key
    item] tells whether [setItem(key, item)] throws when the storage holds
    [contents]. *)
Record World := {
  slice : TasksState;
  localStorage : gmap string StoredItem;
  storageLog : list StorageCall;
  setItemThrows : gmap string StoredItem → string → StoredItem → bool
}.

Definition sampleTasks : list Task :=
  [ {| id := 1; title := "Fix login bug"; status := pending;
       deadline := "2025-05-10"; category := work; priority := high |};
    {| id := 2; title := "Write unit tests"; status := completed;
       deadline := "2025-06-01"; category := work; priority := medium |};
    {| id := 3; title := "Update README documentation"; status := pending;
       deadline := "2025-04-15"; category := work; priority := low |};
    {| id := 4; title := "Design new user profile page"; status := pending;
       deadline := "2025-04-01"; category := personal; priority := medium |};
    {| id := 5; title := "Buy groceries"; status := pending;
       deadline := "2025-04-05"; category := shopping; priority := high |};
    {| id := 6; title := "Schedule doctor appointment"; status := completed;
       deadline := "2025-04-10"; category := health; priority := high |};
    {| id := 7; title := "Pay utility bills"; status := pending;
       deadline := "2025-04-20"; category := finance; priority := medium |} ].

(** [loadTasksFromStorage]: both entries present gives the stored data,
    anything else the sample data with [nextId = 8]. *)
Definition loadTasksFromStorage (ls : gmap string StoredItem) : list Task * Z :=
  match ls !! "tasks", ls !! "nextId" with
  | Some (JsonTasks ts), Some (DecimalNumber n) => (ts, n)
  | _, _ => (sampleTasks, 8)
  end.

(** [initialState], computed when the module is loaded. *)
Definition initialState (ls : gmap string StoredItem) : TasksState :=
  let '(ts, n) := loadTasksFromStorage ls in
  {| tasks := ts; nextId := n; deletedIds := [] |}.

(** The world a fresh browser profile starts from: empty storage, hence the
    sample data, and a storage that accepts every write. *)
Definition initialWorld : World :=
  {| slice := initialState ∅; localStorage := ∅; storageLog := [];
     setItemThrows := λ _ _ _, false |}.

Definition removeItem (key : string) (w : World) : World :=
  {| slice := slice w;
     localStorage := delete key (localStorage w);
     storageLog := storageLog w ++ [RemoveItem key];
     setItemThrows := setItemThrows w |}.

Definition setSlice (s : TasksState) (w : World) : World :=
  {| slice := s; localStorage := localStorage w; storageLog := storageLog w;
     setItemThrows := setItemThrows w |}.

(** The [try] block of [saveToLocalStorage] as it acts on the storage: the
    contents afterwards and the calls made.  [setItem('tasks', ...)] comes
    first; when it throws, control passes to the [catch] and
    [setItem('nextId', ...)] is not reached; when the second call throws the
    tasks are stored and [nextId] is not.  The [catch] only logs to the
    console. *)
Definition saveState
    (throws : gmap string StoredItem → string → StoredItem → bool)
    (s : TasksState) (contents : gmap string StoredItem)
    : gmap string StoredItem * list StorageCall :=
  let tasksItem := JsonTasks (tasks s) in
  let nextIdItem := DecimalNumber (nextId s) in
  if throws contents "tasks" tasksItem then
    (contents, [SetItemThrew "tasks" tasksItem])
  else
    let contents1 := <["tasks" := tasksItem]> contents in
    if throws contents1 "nextId" nextIdItem then
      (contents1, [SetItem "tasks" tasksItem; SetItemThrew "nextId" nextIdItem])
    else
      (<["nextId" := nextIdItem]> contents1,
       [SetItem "tasks" tasksItem; SetItem "nextId" nextIdItem]).

(** [saveToLocalStorage(state)] tries to write the tasks and [nextId];
    [deletedIds] is not persisted.  It touches the storage only: the slice
    state is as before whether or not the writes succeed. *)
Definition saveToLocalStorage (w : World) : World :=
  {| slice := slice w;
     localStorage := (saveState (setItemThrows w) (slice w) (localStorage w)).1;
     storageLog :=
       storageLog w ++ (saveState (setItemThrows w) (slice w) (localStorage w)).2;
     setItemThrows := setItemThrows w |}.

(** ** Array.prototype.sort

    [sort] is stable and orders by the sign of the comparator: a negative
    result puts the first argument first, a positive one the second, zero
    keeps the original order.  Stable insertion from the right computes
    that ordering for the comparators used here. *)
Section Sort.
Context {A : Type} (cmp : A → A → Z).

Fixpoint sortInsert (x : A) (l : list A) : list A :=
  match l with
  | [] => [x]
  | y :: l' => if cmp x y <=? 0 then x :: y :: l' else y :: sortInsert x l'
  end.

Definition arraySort (l : list A) : list A := foldr sortInsert [] l.
End Sort.

(** ** Reducers *)

Definition hasId (i : Z) (t : Task) : Prop := id t = i.

#[global] Instance hasId_dec i t : Decision (hasId i t).
Proof. unfold hasId. apply _. Defined.

(** [tasks.findIndex(task => task.id === i)]: the first index whose task has
    id [i], or [None] for the source's [-1]. *)
Definition findIndex (i : Z) (ts : list Task) : option nat :=
  fst <$> list_find (hasId i) ts.

(** [{ id: newId, ...action.payload }] *)
Definition makeTask (newId : Z) (fields : TaskFields) : Task :=
  {| id := newId; title := newTitle fields; status := newStatus fields;
     deadline := newDeadline fields; category := newCategory fields;
     priority := newPriority fields |}.

(** [addTask]: the sorted [deletedIds] is empty exactly when [deletedIds]
    is, so the test [deletedIds.length > 0] is the match on the sorted
    array; [shift] takes its first element off. *)
Definition addTask (fields : TaskFields) (w : World) : World :=
  let s := slice w in
  let '(newId, s1) :=
    match arraySort (λ a b, a - b) (deletedIds s) with
    | smallest :: rest =>
        (smallest, {| tasks := tasks s; nextId := nextId s; deletedIds := rest |})
    | [] =>
        (nextId s,
         {| tasks := tasks s; nextId := nextId s + 1; deletedIds := deletedIds s |})
    end in
  let newTask := makeTask newId fields in
  saveToLocalStorage
    (setSlice {| tasks := tasks s1 ++ [newTask]; nextId := nextId s1;
                 deletedIds := deletedIds s1 |} w).

(** [{ ...task, ...payload }] *)
Definition mergeTask (t : Task) (p : TaskPatch) : Task :=
  {| id := patchId p;
     title := default (title t) (patchTitle p);
     status := default (status t) (patchStatus p);
     deadline := default (deadline t) (patchDeadline p);
     category := default (category t) (patchCategory p);
     priority := default (priority t) (patchPriority p) |}.

Definition updateTask (p : TaskPatch) (w : World) : World :=
  let s := slice w in
  match findIndex (patchId p) (tasks s) with
  | Some index =>
      match tasks s !! index with
      | Some t =>
          saveToLocalStorage
            (setSlice {| tasks := <[index := mergeTask t p]> (tasks s);
                         nextId := nextId s; deletedIds := deletedIds s |} w)
      | None => w
      end
  | None => w
  end.

Definition toggle (st : TaskStatus) : TaskStatus :=
  match st with pending => completed | completed => pending end.

Definition setStatus (st : TaskStatus) (t : Task) : Task :=
  {| id := id t; title := title t; status := st; deadline := deadline t;
     category := category t; priority := priority t |}.

Definition toggleTaskStatus (i : Z) (w : World) : World :=
  let s := slice w in
  match findIndex i (tasks s) with
  | Some index =>
      match tasks s !! index with
      | Some t =>
          saveToLocalStorage
            (setSlice {| tasks := <[index := setStatus (toggle (status t)) t]> (tasks s);
                         nextId := nextId s; deletedIds := deletedIds s |} w)
      | None => w
      end
  | None => w
  end.

Definition deleteTask (i : Z) (w : World) : World :=
  let s := slice w in
  saveToLocalStorage
    (setSlice {| tasks := filter (λ t, id t ≠ i) (tasks s);
                 nextId := nextId s;
                 deletedIds := deletedIds s ++ [i] |} w).

Definition MAX_SAFE_INTEGER : Z := 9007199254740991.

(** [new Map(taskIds.map((id, index) => [id, index]))]: entries are inserted
    from left to right, so an id listed more than once keeps its last
    index. *)
Definition orderMap (taskIds : list Z) : gmap Z Z :=
  foldl (λ m entry, <[entry.1 := entry.2]> m) ∅
        (imap (λ index i, (i, Z.of_nat index)) taskIds).

(** [orderMap.get(id) ?? Number.MAX_SAFE_INTEGER] *)
Definition orderOf (m : gmap Z Z) (t : Task) : Z :=
  default MAX_SAFE_INTEGER (m !! id t).

Definition updateTaskOrder (taskIds : list Z) (w : World) : World :=
  let s := slice w in
  let m := orderMap taskIds in
  saveToLocalStorage
    (setSlice {| tasks := arraySort (λ a b, orderOf m a - orderOf m b) (tasks s);
                 nextId := nextId s; deletedIds := deletedIds s |} w).

Definition resetToSampleData (w : World) : World :=
  let w1 := removeItem "nextId" (removeItem "tasks" w) in
  let '(ts, n) := loadTasksFromStorage (localStorage w1) in
  setSlice {| tasks := ts; nextId := n; deletedIds := [] |} w1.

(** The actions exported by the slice, and the reducer dispatching on
    them. *)
Inductive Action :=
  | AddTask (fields : TaskFields)
  | UpdateTask (p : TaskPatch)
  | ToggleTaskStatus (i : Z)
  | DeleteTask (i : Z)
  | UpdateTaskOrder (taskIds : list Z)
  | ResetToSampleData.

Definition reducer (a : Action) (w : World) : World :=
  match a with
  | AddTask fields => addTask fields w
  | UpdateTask p => updateTask p w
  | ToggleTaskStatus i => toggleTaskStatus i w
  | DeleteTask i => deleteTask i w
  | UpdateTaskOrder taskIds => updateTaskOrder taskIds w
  | ResetToSampleData => resetToSampleData w
  end.

(** Dispatching a sequence of actions, first action first. *)
Definition dispatchAll (actions : list Action) (w : World) : World :=
  foldl (λ w a, reducer a w) w actions.

(** ** Text primitives *)

Definition unit_code (c : ascii) : N := N_of_ascii c.

(** [toLowerCase] on one code unit: A-Z, and the Latin-1 capitals
    U+00C0-U+00DE except the multiplication sign U+00D7, move up by 32.
    On text of units below 256 [String.prototype.toLowerCase] acts unit by
    unit in this way; its context-sensitive rules (the final sigma) concern
    units outside this range, which the embedding does not represent. *)
Definition lowerUnit (c : ascii) : ascii :=
  let n := unit_code c in
  if ((65 <=? n) && (n <=? 90) ||
      (192 <=? n) && (n <=? 222) && negb (n =? 215))%N
  then ascii_of_N (n + 32) else c.

Fixpoint toLowerCase (s : string) : string :=
  match s with
  | EmptyString => EmptyString
  | String c s' => String (lowerUnit c) (toLowerCase s')
  end.

(** White space as [trim] sees it: TAB, LF, VT, FF, CR, SP and NBSP. *)
Definition isWhiteSpace (c : ascii) : bool :=
  let n := unit_code c in
  ((9 <=? n) && (n <=? 13) || (n =? 32) || (n =? 160))%N.

Fixpoint trimStart (s : string) : string :=
  match s with
  | EmptyString => EmptyString
  | String c s' => if isWhiteSpace c then trimStart s' else s
  end.

Fixpoint trimEnd (s : string) : string :=
  match s with
  | EmptyString => EmptyString
  | String c s' =>
      match trimEnd s' with
      | EmptyString => if isWhiteSpace c then EmptyString else String c EmptyString
      | rest => String c rest
      end
  end.

Definition trim (s : string) : string := trimEnd (trimStart s).

(** [s.startsWith(t)] *)
Fixpoint startsWith (s t : string) : bool :=
  match t, s with
  | EmptyString, _ => true
  | String _ _, EmptyString => false
  | String b t', String a s' => bool_decide (a = b) && startsWith s' t'
  end.

(** [s.includes(t)]: [t] occurs in [s] at some offset. *)
Fixpoint includes (s t : string) : bool :=
  startsWith s t ||
  match s with
  | EmptyString => false
  | String _ s' => includes s' t
  end.

(** The relational operator [<] on strings: code units compared from the
    left, a proper prefix being smaller. *)
Definition stringLt (a b : string) : bool := String.ltb a b.

(** [String(n)] for an integer [n]: its decimal numeral. *)
Definition numberToString (n : Z) : string :=
  NilZero.string_of_int (Z.to_int n).

Definition statusName (s : TaskStatus) : string :=
  match s with pending => "pending" | completed => "completed" end.

Definition categoryName (c : TaskCategory) : string :=
  match c with
  | work => "work" | personal => "personal" | shopping => "shopping"
  | health => "health" | finance => "finance" | other => "other"
  end.

Definition priorityName (p : TaskPriority) : string :=
  match p with high => "high" | medium => "medium" | low => "low" end.

(** ** Selectors *)

Definition selectAllTasks (s : TasksState) : list Task := tasks s.

Definition selectTaskById (i : Z) (s : TasksState) : option Task :=
  snd <$> list_find (hasId i) (tasks s).

Definition selectTasksByStatus (st : TaskStatus) (s : TasksState) : list Task :=
  filter (λ t, status t = st) (tasks s).

Definition selectTasksByCategory (c : TaskCategory) (s : TasksState) : list Task :=
  filter (λ t, category t = c) (tasks s).

Definition selectTasksByPriority (p : TaskPriority) (s : TasksState) : list Task :=
  filter (λ t, priority t = p) (tasks s).

Definition selectTasksBySearchTerm (searchTerm : string) (s : TasksState) : list Task :=
  if bool_decide (trim searchTerm = "") then tasks s
  else
    let term := toLowerCase searchTerm in
    filter (λ t, includes (toLowerCase (title t)) term = true) (tasks s).

(** [keyof Task] *)
Inductive TaskField :=
  | FieldId | FieldTitle | FieldStatus | FieldDeadline | FieldCategory
  | FieldPriority.

Inductive Direction := asc | desc.

(** [String(task[field])] *)
Definition fieldText (field : TaskField) (t : Task) : string :=
  match field with
  | FieldId => numberToString (id t)
  | FieldTitle => title t
  | FieldStatus => statusName (status t)
  | FieldDeadline => deadline t
  | FieldCategory => categoryName (category t)
  | FieldPriority => priorityName (priority t)
  end.

Definition priorityValue (p : TaskPriority) : Z :=
  match p with high => 0 | medium => 1 | low => 2 end.

Section DateSelectors.
(** [new Date(text).getTime()], the platform's date parser, for the
    deadlines it accepts. *)
Variable getTime : string → Z.

Definition selectTasksSortedByDeadline (s : TasksState) : list Task :=
  arraySort (λ a b, getTime (deadline a) - getTime (deadline b)) (tasks s).

(** The comparator handed to [sort] by [selectTasksSortedByField]. *)
Definition fieldComparator (field : TaskField) (direction : Direction)
    (a b : Task) : Z :=
  match field with
  | FieldDeadline =>
      let dateA := getTime (deadline a) in
      let dateB := getTime (deadline b) in
      match direction with asc => dateA - dateB | desc => dateB - dateA end
  | FieldPriority =>
      let valueA := priorityValue (priority a) in
      let valueB := priorityValue (priority b) in
      match direction with asc => valueA - valueB | desc => valueB - valueA end
  | _ =>
      let valueA := toLowerCase (fieldText field a) in
      let valueB := toLowerCase (fieldText field b) in
      if stringLt valueA valueB then
        match direction with asc => -1 | desc => 1 end
      else if stringLt valueB valueA then
        match direction with asc => 1 | desc => -1 end
      else 0
  end.

Definition selectTasksSortedByField (field : TaskField) (direction : Direction)
    (s : TasksState) : list Task :=
  arraySort (fieldComparator field direction) (tasks s).
End DateSelectors.

Definition selectTasksSortedByPriority (s : TasksState) : list Task :=
  arraySort (λ a b, priorityValue (priority a) - priorityValue (priority b))
            (tasks s).

(** [(acc[key] || 0) + 1] stored back under [key]. *)
Definition countUp (acc : gmap string Z) (key : string) : gmap string Z :=
  <[key := default 0 (acc !! key) + 1]> acc.

(** The aggregates of [selectTaskStatistics] that do not depend on the
    clock or on floating-point rounding. *)
Record TaskStatistics := {
  totalTasks : Z;
  completedTasks : Z;
  pendingTasks : Z;
  categoryCounts : gmap string Z;
  priorityCounts : gmap string Z
}.

Definition selectTaskStatistics (s : TasksState) : TaskStatistics :=
  let ts := tasks s in
  let total := Z.of_nat (length ts) in
  let done_ := Z.of_nat (length (filter (λ t, status t = completed) ts)) in
  {| totalTasks := total;
     completedTasks := done_;
     pendingTasks := total - done_;
     categoryCounts := foldl (λ acc t, countUp acc (categoryName (category t))) ∅ ts;
     priorityCounts := foldl (λ acc t, countUp acc (priorityName (priority t))) ∅ ts |}.

(** The sum of the values of a [Record<string, number>]. *)
Definition sumValues (m : gmap string Z) : Z :=
  map_fold (λ _ v acc, v + acc) 0 m.

(** [overdueCount] of [selectTaskStatistics]: the pending tasks whose
    deadline lies before the current instant [today] (both in milliseconds,
    as the comparison of two [Date] objects reads them). *)
Definition overdueCount (getTime : string → Z) (today : Z) (s : TasksState) : Z :=
  Z.of_nat (length (filter (λ t, status t = pending ∧ getTime (deadline t) < today)
                           (tasks s))).

(** ** The task list ([TaskList.tsx])

    The component state that decides which tasks are shown: a filter set to
    ['all'] and the empty sort field are [None]. *)
Record ListControls := {
  statusFilter : option TaskStatus;
  categoryFilter : option TaskCategory;
  priorityFilter : option TaskPriority;
  searchTerm : string;
  sortField : option TaskField;
  sortDirection : Direction
}.

Definition filteredByStatus (c : ListControls) (s : TasksState) : list Task :=
  match statusFilter c with
  | None => selectAllTasks s
  | Some pending => selectTasksByStatus pending s
  | Some completed => selectTasksByStatus completed s
  end.

Definition filteredByCategory (c : ListControls) (s : TasksState) : list Task :=
  match categoryFilter c with
  | None => filteredByStatus c s
  | Some wanted => filter (λ t, category t = wanted) (filteredByStatus c s)
  end.

Definition filteredByPriority (c : ListControls) (s : TasksState) : list Task :=
  match priorityFilter c with
  | None => filteredByCategory c s
  | Some wanted => filter (λ t, priority t = wanted) (filteredByCategory c s)
  end.

Definition filteredTasks (c : ListControls) (s : TasksState) : list Task :=
  if bool_decide (trim (searchTerm c) = "") then filteredByPriority c s
  else
    let term := toLowerCase (searchTerm c) in
    filter (λ t, includes (toLowerCase (title t)) term = true)
           (filteredByPriority c s).

(** The rows of the table.  The component sorts with the same comparator as
    [selectTasksSortedByField], written out a second time in its source. *)
Definition visibleTasks (getTime : string → Z) (c : ListControls)
    (s : TasksState) : list Task :=
  match sortField c with
  | None => filteredTasks c s
  | Some field =>
      arraySort (fieldComparator getTime field (sortDirection c)) (filteredTasks c s)
  end.

(** [tasksCopy.splice(dropIndex, 0, draggedTask)] after
    [tasksCopy.splice(draggedIndex, 1)]. *)
Definition moveTask (draggedIndex dropIndex : nat) (draggedTask : Task)
    (tasksCopy : list Task) : list Task :=
  let removed := delete draggedIndex tasksCopy in
  take dropIndex removed ++ draggedTask :: drop dropIndex removed.

(** [handleDragOver(taskId)] with the component's [draggedTaskId] ([None]
    for [null]): the world after the handler has run. *)
Definition handleDragOver (getTime : string → Z) (c : ListControls)
    (draggedTaskId : option Z) (taskId : Z) (w : World) : World :=
  match draggedTaskId with
  | None => w
  | Some dragged =>
      if decide (dragged = taskId) then w
      else
        let tasksCopy := visibleTasks getTime c (slice w) in
        match findIndex dragged tasksCopy, findIndex taskId tasksCopy with
        | Some draggedIndex, Some dropIndex =>
            match tasksCopy !! draggedIndex with
            | Some draggedTask =>
                updateTaskOrder
                  (id <$> moveTask draggedIndex dropIndex draggedTask tasksCopy) w
            | None => w
            end
        | _, _ => w
        end
  end.

(** ** The forms ([TaskForm.tsx], [AddTaskForm.tsx]) *)

(** [{ id: task.id, ...data }]: every field of the form is present. *)
Definition formPatch (i : Z) (data : TaskFields) : TaskPatch :=
  {| patchId := i;
     patchTitle := Some (newTitle data);
     patchStatus := Some (newStatus data);
     patchDeadline := Some (newDeadline data);
     patchCategory := Some (newCategory data);
     patchPriority := Some (newPriority data) |}.

(** [onSubmit] of [TaskForm]: with a [task] prop the form edits it, without
    one it adds a task. *)
Definition taskFormSubmit (task : option Task) (data : TaskFields)
    (w : World) : World :=
  match task with
  | Some t => updateTask (formPatch (id t) data) w
  | None => addTask data w
  end.

(** The inputs of [AddTaskForm], which has no status field. *)
Record AddTaskFormInputs := {
  inputTitle : string;
  inputDeadline : string;
  inputCategory : TaskCategory;
  inputPriority : TaskPriority
}.

(** [onSubmit] of [AddTaskForm]. *)
Definition addTaskFormSubmit (data : AddTaskFormInputs) (w : World) : World :=
  addTask {| newTitle := inputTitle data; newStatus := pending;
             newDeadline := inputDeadline data;
             newCategory := inputCategory data;
             newPriority := inputPriority data |} w.

(** ** Notions used to state the properties *)

(** A term that is empty or consists of white space only. *)
Fixpoint allWhiteSpace (s : string) : bool :=
  match s with
  | EmptyString => true
  | String c s' => isWhiteSpace c && allWhiteSpace s'
  end.

(** [t] occurs in [s] as a substring. *)
Definition occursIn (t s : string) : Prop :=
  ∃ before after, s = before +:+ t +:+ after.

(** The dictionary order on text: [a] comes before [b] when [a] is a
    proper prefix of [b], or when, after a common prefix, [a] continues with
    a smaller code unit than [b]. *)
Definition lexLt (a b : string) : Prop :=
  ∃ common,
    (∃ c rest, a = common ∧ b = common +:+ String c rest) ∨
    (∃ x restA y restB,
        a = common +:+ String x restA ∧ b = common +:+ String y restB ∧
        (unit_code x < unit_code y)%N).

(** The text a field is compared by, case folded. *)
Definition sortKey (field : TaskField) (t : Task) : string :=
  toLowerCase (fieldText field t).

(** "May precede" for a sort direction: ascending, the later key is never
    smaller than the earlier one; descending, never larger. *)
Definition inTextOrder (field : TaskField) (direction : Direction)
    (a b : Task) : Prop :=
  match direction with
  | asc => ¬ lexLt (sortKey field b) (sortKey field a)
  | desc => ¬ lexLt (sortKey field a) (sortKey field b)
  end.

(** The position of an id in a reorder payload: the index at which it is
    listed, and the last such index should it be listed more than once. *)
Fixpoint positionOf (i : Z) (ids : list Z) : option nat :=
  match ids with
  | [] => None
  | j :: ids' =>
      match positionOf i ids' with
      | Some k => Some (S k)
      | None => if decide (j = i) then Some 0%nat else None
      end
  end.

(** The payload with every id kept at its last listing only; a payload
    without repetitions is left as it is. *)
Fixpoint keepLast (ids : list Z) : list Z :=
  match ids with
  | [] => []
  | i :: ids' => if decide (i ∈ ids') then keepLast ids' else i :: keepLast ids'
  end.

(** The tasks with a listed id, taken id by id in payload order (tasks
    sharing an id stay in collection order), and the tasks with an unlisted
    id, in collection order. *)
Definition listedTasks (ids : list Z) (ts : list Task) : list Task :=
  concat ((λ i, filter (hasId i) ts) <$> keepLast ids).

Definition unlistedTasks (ids : list Z) (ts : list Task) : list Task :=
  filter (λ t, id t ∉ ids) ts.

(** The ids of the tasks of a collection, in collection order. *)
Definition taskIds (s : TasksState) : list Z := id <$> tasks s.

(** The bookkeeping that keeps ids apart: live ids are pairwise distinct,
    so are the deleted ids awaiting reuse, no deleted id is live, and every
    id handed out so far lies below [nextId]. *)
Definition idsWellFormed (s : TasksState) : Prop :=
  NoDup (taskIds s) ∧
  NoDup (deletedIds s) ∧
  (∀ i, i ∈ deletedIds s → i ∉ taskIds s) ∧
  (∀ i, i ∈ deletedIds s → i < nextId s) ∧
  (∀ i, i ∈ taskIds s → i < nextId s).

(** An action as the task list issues it: a delete names a task that is in
    the collection. *)
Definition targetsLiveTask (a : Action) (s : TasksState) : Prop :=
  match a with
  | DeleteTask i => i ∈ taskIds s
  | _ => True
  end.

Fixpoint allTargetLiveTasks (actions : list Action) (w : World) : Prop :=
  match actions with
  | [] => True
  | a :: rest =>
      targetsLiveTask a (slice w) ∧ allTargetLiveTasks rest (reducer a w)
  end.

(** Reloading the page would find the slice's tasks and [nextId] in
    storage (or, with nothing stored, the sample data they equal). *)
Definition storageInSync (w : World) : Prop :=
  loadTasksFromStorage (localStorage w) = (tasks (slice w), nextId (slice w)).

(** The two writes of [saveToLocalStorage] for a slice state. *)
Definition savedCalls (s : TasksState) : list StorageCall :=
  [SetItem "tasks" (JsonTasks (tasks s));
   SetItem "nextId" (DecimalNumber (nextId s))].

(** The storage accepts every write: no [setItem] call throws, whatever the
    storage holds. *)
Definition storageNeverThrows (w : World) : Prop :=
  ∀ contents key item, setItemThrows w contents key item = false.

(** A storage that rejects every write, as a disabled or full one does. *)
Definition withFullStorage (w : World) : World :=
  {| slice := slice w; localStorage := localStorage w;
     storageLog := storageLog w; setItemThrows := λ _ _ _, true |}.

(** A task passes the three drop-down filters and the search box. *)
Definition passesFilters (c : ListControls) (t : Task) : Prop :=
  (∀ st, statusFilter c = Some st → status t = st) ∧
  (∀ cat, categoryFilter c = Some cat → category t = cat) ∧
  (∀ pr, priorityFilter c = Some pr → priority t = pr) ∧
  (allWhiteSpace (searchTerm c) = false →
   occursIn (toLowerCase (searchTerm c)) (toLowerCase (title t))).

(** No filter, no search term, no sort: what the list starts with. *)
Definition noControls : ListControls :=
  {| statusFilter := None; categoryFilter := None; priorityFilter := None;
     searchTerm := ""; sortField := None; sortDirection := asc |}.

(** ** Running the model on the sample data *)

Definition someFields : TaskFields :=
  {| newTitle := "Book flights"; newStatus := pending;
     newDeadline := "2025-07-15"; newCategory := personal;
     newPriority := low |}.

(** A task with a given id and title, for running the sorts on titles
    that differ in case. *)
Definition taskTitled (i : Z) (text : string) : Task :=
  {| id := i; title := text; status := pending; deadline := "2025-07-15";
     category := other; priority := low |}.

Definition mixedCaseTasks : TasksState :=
  {| tasks := [taskTitled 1 "banana"; taskTitled 2 "Apple";
               taskTitled 3 "cherry"; taskTitled 4 "apple";
               taskTitled 5 "Banana"];
     nextId := 6; deletedIds := [] |}.

Example numberToString_10 : numberToString 10 = "10".
Proof. reflexivity. Qed.

Example numberToString_neg : numberToString (-42) = "-42".
Proof. reflexivity. Qed.

Example numberToString_0 : numberToString 0 = "0".
Proof. reflexivity. Qed.

Example includes_sample : includes (toLowerCase "Fix Login bug") (toLowerCase "LOGIN") = true.
Proof. reflexivity. Qed.

Example trim_sample : trim "  a b  " = "a b".
Proof. reflexivity. Qed.

Example stringLt_prefix : stringLt "ab" "abc" = true ∧ stringLt "abc" "ab" = false.
Proof. split; reflexivity. Qed.

Example stringLt_digits : stringLt "10" "2" = true.
Proof. reflexivity. Qed.

(** ** Facts about [arraySort] *)

Section SortFacts.
Context {A : Type} (cmp : A → A → Z).
Implicit Types (x y : A) (l : list A).

Lemma sortInsert_perm x l : sortInsert cmp x l ≡ₚ x :: l.
Proof.
  induction l as [|y l IH]; simpl; [done|].
  destruct (cmp x y <=? 0); [done|].
  rewrite IH. apply Permutation_swap.
Qed.

Lemma arraySort_perm l : arraySort cmp l ≡ₚ l.
Proof.
  induction l as [|x l IH]; simpl; [done|].
  rewrite sortInsert_perm. by rewrite IH.
Qed.

Lemma arraySort_elem x l : x ∈ arraySort cmp l ↔ x ∈ l.
Proof. by rewrite arraySort_perm. Qed.

Lemma arraySort_length l : length (arraySort cmp l) = length l.
Proof. by rewrite arraySort_perm. Qed.

Lemma arraySort_nil_iff l : arraySort cmp l = [] ↔ l = [].
Proof.
  split; [|by intros ->].
  intros H. apply length_zero_iff_nil.
  by rewrite <- arraySort_length, H.
Qed.

(** Inserting into a concatenation: the element stops in the left part
    when nothing on the right precedes it, and passes over a left part
    that wholly precedes it. *)
Lemma sortInsert_app_l x l1 l2 :
  (∀ y, y ∈ l2 → cmp x y ≤ 0) →
  sortInsert cmp x (l1 ++ l2) = sortInsert cmp x l1 ++ l2.
Proof.
  intros H. induction l1 as [|z l1 IH]; simpl.
  - destruct l2 as [|y l2]; [done|]. simpl.
    assert (cmp x y ≤ 0) as ?%Z.leb_le by (apply H; left).
    by case_match.
  - destruct (cmp x z <=? 0); [done|]. by rewrite IH.
Qed.

Lemma sortInsert_app_r x l1 l2 :
  (∀ y, y ∈ l1 → 0 < cmp x y) →
  sortInsert cmp x (l1 ++ l2) = l1 ++ sortInsert cmp x l2.
Proof.
  intros H. induction l1 as [|z l1 IH]; simpl; [done|].
  assert (0 < cmp x z) as Hz by (apply H; left).
  destruct (Z.leb_spec (cmp x z) 0); [lia|].
  rewrite IH; [done|]. intros y Hy. apply H. by right.
Qed.

(** Elements that all tie, or are already in order, stay as they are. *)
Lemma arraySort_in_order l :
  (∀ x y, x ∈ l → y ∈ l → cmp x y ≤ 0) → arraySort cmp l = l.
Proof.
  induction l as [|x l IH]; intros H; simpl; [done|].
  rewrite IH by (intros; apply H; by right).
  destruct l as [|y l]; [done|]. simpl.
  assert (cmp x y ≤ 0) as ?%Z.leb_le by (apply H; [left|right; left]).
  by case_match.
Qed.

(** When every element satisfying [P] precedes every element that does
    not, sorting sorts the two groups separately. *)
Lemma arraySort_partition (P : A → Prop) `{HPdec : !∀ x, Decision (P x)} l :
  (∀ x y, x ∈ l → y ∈ l → P x → ¬ P y → cmp x y ≤ 0 ∧ 0 < cmp y x) →
  arraySort cmp l
  = arraySort cmp (filter P l) ++ arraySort cmp (filter (λ x, ¬ P x) l).
Proof.
  induction l as [|x l IH]; intros H; [done|].
  assert (∀ a b, a ∈ l → b ∈ l → P a → ¬ P b → cmp a b ≤ 0 ∧ 0 < cmp b a)
    as Hl by (intros; apply H; by try right).
  cbn [arraySort foldr]. fold (arraySort cmp l). rewrite (IH Hl).
  rewrite !filter_cons. destruct (decide (P x)) as [HP|HP].
  - rewrite decide_False by tauto. cbn [arraySort foldr].
    apply sortInsert_app_l.
    intros y [Hy HPy]%arraySort_elem%list_elem_of_filter.
    apply H; [left|by right|done..].
  - rewrite decide_True by done. cbn [arraySort foldr].
    apply sortInsert_app_r.
    intros y [Hy HPy]%arraySort_elem%list_elem_of_filter.
    apply H; [by right|left|done..].
Qed.

(** Two comparators that agree in sign on the elements of [l] sort [l] the
    same way. *)
Lemma sortInsert_ext (cmp' : A → A → Z) x l :
  (∀ y, y ∈ l → (cmp x y ≤ 0 ↔ cmp' x y ≤ 0)) →
  sortInsert cmp x l = sortInsert cmp' x l.
Proof.
  induction l as [|y l IH]; intros H; simpl; [done|].
  assert (cmp x y ≤ 0 ↔ cmp' x y ≤ 0) as Hxy by (apply H; left).
  rewrite IH by (intros; apply H; by right).
  destruct (Z.leb_spec (cmp x y) 0), (Z.leb_spec (cmp' x y) 0); try done; lia.
Qed.

Lemma arraySort_ext (cmp' : A → A → Z) l :
  (∀ x y, x ∈ l → y ∈ l → (cmp x y ≤ 0 ↔ cmp' x y ≤ 0)) →
  arraySort cmp l = arraySort cmp' l.
Proof.
  induction l as [|x l IH]; intros H; simpl; [done|].
  rewrite <- IH by (intros; apply H; by right).
  apply sortInsert_ext. intros y Hy. rewrite arraySort_elem in Hy.
  apply H; [left|by right].
Qed.

(** With a comparator that is total and transitive (read [cmp x y ≤ 0] as
    "[x] may precede [y]") the result is sorted. *)
Section Sorted.
Hypothesis cmp_total : ∀ x y, 0 < cmp x y → cmp y x ≤ 0.
Hypothesis cmp_trans : ∀ x y z, cmp x y ≤ 0 → cmp y z ≤ 0 → cmp x z ≤ 0.

Lemma sortInsert_sorted x l :
  StronglySorted (λ a b, cmp a b ≤ 0) l →
  StronglySorted (λ a b, cmp a b ≤ 0) (sortInsert cmp x l).
Proof.
  induction 1 as [|y l Hl IH Hy]; simpl.
  - repeat constructor.
  - destruct (Z.leb_spec (cmp x y) 0) as [Hxy|Hxy].
    + constructor; [by constructor|].
      constructor; [done|].
      eapply Forall_impl; [exact Hy|]. intros z ?. by eapply cmp_trans.
    + constructor; [done|].
      apply Forall_forall. intros z Hz.
      rewrite sortInsert_perm in Hz. apply elem_of_cons in Hz as [->|Hz].
      * by apply cmp_total.
      * by eapply Forall_forall in Hy.
Qed.

Lemma arraySort_sorted l :
  StronglySorted (λ a b, cmp a b ≤ 0) (arraySort cmp l).
Proof.
  induction l as [|x l IH]; simpl; [constructor|].
  by apply sortInsert_sorted.
Qed.
End Sorted.

(** Stability: the elements of any class [P] that [x] ties with, and only
    with, come out in their original order. *)
Lemma sortInsert_filter_in (P : A → Prop) `{HPdec : !∀ x, Decision (P x)} x l :
  P x → (∀ y, y ∈ l → 0 < cmp x y → ¬ P y) →
  filter P (sortInsert cmp x l) = x :: filter P l.
Proof.
  intros HP H. induction l as [|y l IH]; simpl.
  - by rewrite filter_cons, decide_True.
  - destruct (Z.leb_spec (cmp x y) 0) as [Hxy|Hxy].
    + by rewrite (filter_cons _ x), decide_True.
    + rewrite !(filter_cons _ y). destruct (decide (P y)) as [HPy|_].
      { exfalso. by apply (H y); [left|..]. }
      apply IH. intros; apply H; [by right|done].
Qed.

Lemma sortInsert_filter_out (P : A → Prop) `{HPdec : !∀ x, Decision (P x)} x l :
  ¬ P x → filter P (sortInsert cmp x l) = filter P l.
Proof.
  intros HP. induction l as [|y l IH]; simpl.
  - by rewrite filter_cons, decide_False.
  - destruct (cmp x y <=? 0).
    + by rewrite (filter_cons _ x), decide_False.
    + by rewrite !(filter_cons _ y), IH.
Qed.

Lemma arraySort_stable (P : A → Prop) `{HPdec : !∀ x, Decision (P x)} l :
  (∀ x y, x ∈ l → y ∈ l → P x → 0 < cmp x y → ¬ P y) →
  filter P (arraySort cmp l) = filter P l.
Proof.
  induction l as [|x l IH]; intros H; simpl; [done|].
  rewrite filter_cons. destruct (decide (P x)) as [HP|HP].
  - rewrite sortInsert_filter_in; [|done|].
    + rewrite IH; [done|]. intros; eapply H; eauto; by right.
    + intros y Hy ?. rewrite arraySort_elem in Hy.
      eapply (H x y); eauto; [left|by right].
  - rewrite sortInsert_filter_out by done.
    apply IH. intros; eapply H; eauto; by right.
Qed.
End SortFacts.

(** ** Facts about [findIndex] and in-place updates *)

Lemma findIndex_Some i ts k :
  findIndex i ts = Some k ↔
  ∃ t, ts !! k = Some t ∧ id t = i ∧
       ∀ j y, ts !! j = Some y → (j < k)%nat → id y ≠ i.
Proof.
  unfold findIndex. split.
  - destruct (list_find (hasId i) ts) as [[k' t]|] eqn:E; [|done].
    intros [= <-]. apply list_find_Some in E as (? & ? & ?). eauto.
  - intros (t & Hk & Hi & Hmin).
    assert (list_find (hasId i) ts = Some (k, t)) as ->; [|done].
    apply list_find_Some. eauto.
Qed.

Lemma findIndex_None i ts :
  findIndex i ts = None ↔ ∀ t, t ∈ ts → id t ≠ i.
Proof.
  unfold findIndex. rewrite fmap_None, list_find_None, Forall_forall. done.
Qed.

Lemma findIndex_is_Some i ts :
  (∃ t, t ∈ ts ∧ id t = i) → ∃ k, findIndex i ts = Some k.
Proof.
  intros (t & Ht & Hi). destruct (findIndex i ts) as [k|] eqn:E; [eauto|].
  rewrite findIndex_None in E. by destruct (E t Ht).
Qed.

(** Overwriting a task by one with the same id does not move the first
    occurrence of any id. *)
Lemma findIndex_insert_same_id i ts k t t' :
  ts !! k = Some t → id t' = id t →
  findIndex i (<[k := t']> ts) = findIndex i ts.
Proof.
  intros Hk Hid.
  assert (∀ us, id <$> us = id <$> ts → findIndex i us = findIndex i ts) as Hids.
  { clear. intros us. revert ts.
    induction us as [|u us IH]; intros [|t ts] [=]; [done|].
    specialize (IH ts ltac:(done)). unfold findIndex in *. simpl.
    assert (hasId i u ↔ hasId i t) as Hut by (unfold hasId; split; congruence).
    destruct (decide (hasId i u)), (decide (hasId i t)); try tauto; try done.
    destruct (list_find (hasId i) us) as [[]|], (list_find (hasId i) ts) as [[]|];
      simplify_eq/=; done. }
  apply Hids. rewrite list_fmap_insert, Hid.
  apply list_insert_id. by rewrite list_lookup_fmap, Hk.
Qed.

Lemma setStatus_same t : setStatus (status t) t = t.
Proof. by destruct t. Qed.

Lemma toggle_toggle st : toggle (toggle st) = st.
Proof. by destruct st. Qed.

(** Replacing a task that is not completed by a completed one adds one to
    the number of completed tasks. *)
Lemma completed_count_insert ts k t t' :
  ts !! k = Some t → status t = pending → status t' = completed →
  length (filter (λ u, status u = completed) (<[k := t']> ts))
  = S (length (filter (λ u, status u = completed) ts)).
Proof.
  intros Hk Ht Ht'.
  rewrite <- (take_drop_middle ts k t Hk) at 2.
  rewrite insert_take_drop by (by eapply lookup_lt_Some).
  rewrite !filter_app, !filter_cons, !length_app.
  rewrite decide_True by done. rewrite decide_False by congruence.
  simpl. lia.
Qed.

(** ** The reducers *)

(** C4: when no task of the collection has the given id, [updateTask] with
    that id (whatever the partial fields) and [toggleTaskStatus] of that id
    return the world they were given: the slice state, hence the tasks
    collection, is identical, and no storage call is made. *)
Theorem absent_id_is_noop (w : World) (i : Z) :
  (∀ t, t ∈ tasks (slice w) → id t ≠ i) →
  (∀ p, patchId p = i →
        updateTask p w = w ∧
        tasks (slice (updateTask p w)) = tasks (slice w) ∧
        storageLog (updateTask p w) = storageLog w ∧
        localStorage (updateTask p w) = localStorage w) ∧
  toggleTaskStatus i w = w ∧
  tasks (slice (toggleTaskStatus i w)) = tasks (slice w) ∧
  storageLog (toggleTaskStatus i w) = storageLog w ∧
  localStorage (toggleTaskStatus i w) = localStorage w.
Proof.
  intros Habsent. apply findIndex_None in Habsent.
  assert (toggleTaskStatus i w = w) as Htoggle.
  { unfold toggleTaskStatus. by rewrite Habsent. }
  split.
  - intros p <-.
    assert (updateTask p w = w) as Hupdate.
    { unfold updateTask. by rewrite Habsent. }
    by rewrite Hupdate.
  - by rewrite Htoggle.
Qed.

Lemma absent_id_is_noop_witness :
  let p := {| patchId := 42; patchTitle := Some "Renamed"; patchStatus := None;
              patchDeadline := None; patchCategory := None;
              patchPriority := Some low |} in
  updateTask p initialWorld = initialWorld ∧
  storageLog (updateTask p initialWorld) = [] ∧
  toggleTaskStatus 42 initialWorld = initialWorld.
Proof.
  intros p.
  assert (∀ t, t ∈ tasks (slice initialWorld) → id t ≠ 42) as Habsent.
  { apply (proj1 (findIndex_None 42 _)). reflexivity. }
  destruct (absent_id_is_noop initialWorld 42 Habsent) as [Hu (Ht & _)].
  destruct (Hu p eq_refl) as (H1 & _ & H3 & _).
  split; [exact H1|]. split; [exact H3|exact Ht].
Defined.

(** C9: after [deleteTask(i)] no task of the collection has id [i] (every
    occurrence is removed, all other tasks stay, in order), and [i] is
    appended to [deletedIds] whether or not a task had that id. *)
Theorem deleteTask_removes_and_records (w : World) (i : Z) :
  (∀ t, t ∈ tasks (slice (deleteTask i w)) → id t ≠ i) ∧
  (∀ t, t ∈ tasks (slice (deleteTask i w)) ↔ t ∈ tasks (slice w) ∧ id t ≠ i) ∧
  tasks (slice (deleteTask i w)) = filter (λ t, id t ≠ i) (tasks (slice w)) ∧
  deletedIds (slice (deleteTask i w)) = deletedIds (slice w) ++ [i] ∧
  nextId (slice (deleteTask i w)) = nextId (slice w).
Proof.
  split_and!; try done.
  - intros t Ht. simpl in Ht. by apply list_elem_of_filter in Ht as [? _].
  - intros t. simpl. rewrite list_elem_of_filter. tauto.
Qed.

(** [deleteTask] on a collection holding the id twice, and on one not
    holding it at all. *)
Example deleteTask_duplicates :
  let twice := setSlice {| tasks := sampleTasks ++ sampleTasks; nextId := 8;
                           deletedIds := [] |} initialWorld in
  id <$> tasks (slice (deleteTask 3 twice)) = [1; 2; 4; 5; 6; 7; 1; 2; 4; 5; 6; 7] ∧
  deletedIds (slice (deleteTask 3 twice)) = [3] ∧
  tasks (slice (deleteTask 99 initialWorld)) = sampleTasks ∧
  deletedIds (slice (deleteTask 99 initialWorld)) = [99].
Proof. split_and!; reflexivity. Qed.

(** C10: [updateTask] on an id present in the collection rewrites the first
    task with that id and nothing else: length and order of the collection
    (the sequence of ids) are kept, the tasks at all other positions are
    unchanged, the rewritten task keeps its id, takes the payload's value
    for each field the payload has, and keeps its own for the others;
    [nextId] and [deletedIds] are untouched. *)
Theorem updateTask_frame (w : World) (p : TaskPatch) :
  (∃ t, t ∈ tasks (slice w) ∧ id t = patchId p) →
  ∃ k t t',
    findIndex (patchId p) (tasks (slice w)) = Some k ∧
    tasks (slice w) !! k = Some t ∧
    tasks (slice (updateTask p w)) !! k = Some t' ∧
    length (tasks (slice (updateTask p w))) = length (tasks (slice w)) ∧
    id <$> tasks (slice (updateTask p w)) = id <$> tasks (slice w) ∧
    (∀ j, j ≠ k → tasks (slice (updateTask p w)) !! j = tasks (slice w) !! j) ∧
    id t' = id t ∧
    title t' = default (title t) (patchTitle p) ∧
    status t' = default (status t) (patchStatus p) ∧
    deadline t' = default (deadline t) (patchDeadline p) ∧
    category t' = default (category t) (patchCategory p) ∧
    priority t' = default (priority t) (patchPriority p) ∧
    nextId (slice (updateTask p w)) = nextId (slice w) ∧
    deletedIds (slice (updateTask p w)) = deletedIds (slice w).
Proof.
  intros [k Hk]%findIndex_is_Some.
  pose proof Hk as (t & Ht & Hid & _)%findIndex_Some.
  exists k, t, (mergeTask t p).
  unfold updateTask. rewrite Hk, Ht. simpl.
  pose proof (lookup_lt_Some _ _ _ Ht) as Hlt.
  split_and!; try done.
  - by apply list_lookup_insert_eq.
  - apply length_insert.
  - rewrite list_fmap_insert. simpl. rewrite <- Hid.
    apply list_insert_id. by rewrite list_lookup_fmap, Ht.
  - intros j Hj. by apply list_lookup_insert_ne.
Qed.

Lemma updateTask_frame_witness :
  let p := {| patchId := 1; patchTitle := Some "Fixed login bug";
              patchStatus := None; patchDeadline := None;
              patchCategory := None; patchPriority := None |} in
  ∃ k t t',
    findIndex 1 sampleTasks = Some k ∧
    sampleTasks !! k = Some t ∧
    tasks (slice (updateTask p initialWorld)) !! k = Some t' ∧
    title t' = "Fixed login bug" ∧ status t' = status t.
Proof.
  intros p.
  assert (∃ t, t ∈ tasks (slice initialWorld) ∧ id t = patchId p) as Hex.
  { eexists. split; [left|reflexivity]. }
  destruct (updateTask_frame initialWorld p Hex)
    as (k & t & t' & H1 & H2 & H3 & _ & _ & _ & _ & H4 & H5 & _).
  exists k, t, t'. by split_and!.
Defined.

Lemma TasksState_eta (s : TasksState) :
  {| tasks := tasks s; nextId := nextId s; deletedIds := deletedIds s |} = s.
Proof. by destruct s. Qed.

Lemma toggleTaskStatus_found (w : World) (i : Z) (k : nat) (t : Task) :
  findIndex i (tasks (slice w)) = Some k → tasks (slice w) !! k = Some t →
  slice (toggleTaskStatus i w)
  = {| tasks := <[k := setStatus (toggle (status t)) t]> (tasks (slice w));
       nextId := nextId (slice w); deletedIds := deletedIds (slice w) |}.
Proof. intros Hk Ht. unfold toggleTaskStatus. by rewrite Hk, Ht. Qed.

Lemma selectTaskById_Some (i : Z) (s : TasksState) (t : Task) :
  selectTaskById i s = Some t →
  ∃ k, findIndex i (tasks s) = Some k ∧ tasks s !! k = Some t.
Proof.
  unfold selectTaskById, findIndex.
  destruct (list_find (hasId i) (tasks s)) as [[k u]|] eqn:E; [|done].
  intros [= <-]. exists k. split; [done|].
  by apply list_find_Some in E as [? _].
Qed.

Lemma selectTaskById_lookup (i : Z) (s : TasksState) (k : nat) (t : Task) :
  findIndex i (tasks s) = Some k → tasks s !! k = Some t →
  selectTaskById i s = Some t.
Proof.
  unfold selectTaskById, findIndex.
  destruct (list_find (hasId i) (tasks s)) as [[k' u]|] eqn:E; [|done].
  intros [= <-] Ht. apply list_find_Some in E as [E _]. simpl. congruence.
Qed.

(** C7: toggling the same id twice in a row restores the slice state, so
    every task and its status are as before the first toggle; one toggle of
    an id whose (first) task is pending makes that task completed and
    raises [completedTasks] by exactly one. *)
Theorem toggleTaskStatus_twice (w : World) (i : Z) :
  slice (toggleTaskStatus i (toggleTaskStatus i w)) = slice w ∧
  tasks (slice (toggleTaskStatus i (toggleTaskStatus i w))) = tasks (slice w) ∧
  (∀ t, selectTaskById i (slice w) = Some t → status t = pending →
     selectTaskById i (slice (toggleTaskStatus i w)) = Some (setStatus completed t) ∧
     completedTasks (selectTaskStatistics (slice (toggleTaskStatus i w)))
     = completedTasks (selectTaskStatistics (slice w)) + 1).
Proof.
  assert (slice (toggleTaskStatus i (toggleTaskStatus i w)) = slice w) as Htwice.
  { destruct (findIndex i (tasks (slice w))) as [k|] eqn:Hk.
    - pose proof Hk as (t & Ht & Hid & _)%findIndex_Some.
      pose proof (lookup_lt_Some _ _ _ Ht) as Hlt.
      set (t1 := setStatus (toggle (status t)) t).
      pose proof (toggleTaskStatus_found w i k t Hk Ht) as H1. fold t1 in H1.
      rewrite (toggleTaskStatus_found _ i k t1); rewrite H1; simpl.
      + rewrite list_insert_insert_eq. subst t1. simpl.
        rewrite toggle_toggle.
        replace (setStatus (status t) (setStatus (toggle (status t)) t))
          with t by (by destruct t).
        rewrite list_insert_id by done. apply TasksState_eta.
      + by rewrite (findIndex_insert_same_id i _ k t t1).
      + by apply list_lookup_insert_eq.
    - assert (toggleTaskStatus i w = w) as Hnone; [|by rewrite !Hnone].
      unfold toggleTaskStatus. by rewrite Hk. }
  split; [done|]. split; [by rewrite Htwice|].
  intros t (k & Hk & Ht)%selectTaskById_Some Hpending.
  pose proof (toggleTaskStatus_found w i k t Hk Ht) as H1.
  rewrite Hpending in H1. simpl in H1. split.
  - apply (selectTaskById_lookup _ _ k); rewrite H1; simpl.
    + by rewrite (findIndex_insert_same_id i _ k t).
    + apply list_lookup_insert_eq. by eapply lookup_lt_Some.
  - unfold selectTaskStatistics. rewrite H1. simpl.
    rewrite (completed_count_insert _ k t) by done. lia.
Qed.

Lemma toggleTaskStatus_twice_witness :
  status <$> selectTaskById 1 (slice (toggleTaskStatus 1 initialWorld)) = Some completed ∧
  completedTasks (selectTaskStatistics (slice (toggleTaskStatus 1 initialWorld))) = 3.
Proof.
  destruct (toggleTaskStatus_twice initialWorld 1) as (_ & _ & H).
  destruct (H _ eq_refl eq_refl) as [H1 H2].
  split; [by rewrite H1|exact H2].
Defined.

Lemma StronglySorted_mono {A} (R R' : relation A) (l : list A) :
  (∀ x y, R x y → R' x y) → StronglySorted R l → StronglySorted R' l.
Proof.
  intros HR. induction 1 as [|x l ? IH Hx]; constructor; [done|].
  eapply Forall_impl; [exact Hx|]. auto.
Qed.

(** The numeric comparator [(a, b) => a - b] sorts in ascending order. *)
Lemma numeric_sort_sorted (l : list Z) :
  StronglySorted Z.le (arraySort (λ a b, a - b) l).
Proof.
  eapply StronglySorted_mono; [|apply arraySort_sorted]; simpl; intros; lia.
Qed.

Lemma numeric_sort_head (l : list Z) (m : Z) (rest : list Z) :
  arraySort (λ a b, a - b) l = m :: rest →
  m ∈ l ∧ (∀ x, x ∈ l → m ≤ x) ∧ m :: rest ≡ₚ l.
Proof.
  intros Hsort.
  assert (m :: rest ≡ₚ l) as Hperm by (rewrite <- Hsort; apply arraySort_perm).
  split; [rewrite <- Hperm; left|]. split; [|done].
  intros x Hx. rewrite <- Hperm in Hx.
  pose proof (numeric_sort_sorted l) as Hsorted. rewrite Hsort in Hsorted.
  apply StronglySorted_inv in Hsorted as [_ Hall].
  apply elem_of_cons in Hx as [->|Hx]; [lia|].
  by eapply Forall_forall in Hall.
Qed.

(** C2: on the sample data, [deleteTask(3)] followed by [addTask] gives the
    new task id 3 and leaves [nextId] at 8; in general, with a non-empty
    [deletedIds], [addTask] gives the new task the smallest deleted id,
    takes that id out of [deletedIds] and does not advance [nextId]. *)
Theorem addTask_reuses_smallest_deleted_id :
  (∀ fields,
     let w := addTask fields (deleteTask 3 initialWorld) in
     tasks (slice w)
     = filter (λ t, id t ≠ 3) sampleTasks ++ [makeTask 3 fields] ∧
     nextId (slice initialWorld) = 8 ∧
     nextId (slice w) = 8) ∧
  (∀ (w : World) fields,
     deletedIds (slice w) ≠ [] →
     ∃ smallest rest,
       smallest ∈ deletedIds (slice w) ∧
       (∀ x, x ∈ deletedIds (slice w) → smallest ≤ x) ∧
       smallest :: rest ≡ₚ deletedIds (slice w) ∧
       tasks (slice (addTask fields w))
       = tasks (slice w) ++ [makeTask smallest fields] ∧
       deletedIds (slice (addTask fields w)) = rest ∧
       nextId (slice (addTask fields w)) = nextId (slice w)).
Proof.
  split; [done|].
  intros w fields Hne.
  destruct (arraySort (λ a b, a - b) (deletedIds (slice w)))
    as [|smallest rest] eqn:Hsort.
  { by apply arraySort_nil_iff in Hsort. }
  exists smallest, rest.
  destruct (numeric_sort_head _ _ _ Hsort) as (Hin & Hmin & Hperm).
  unfold addTask. rewrite Hsort. done.
Qed.

Lemma addTask_reuses_smallest_deleted_id_witness :
  let w := deleteTask 2 (deleteTask 5 initialWorld) in
  ∃ smallest rest,
    smallest ∈ [5; 2] ∧
    (∀ x, x ∈ [5; 2] → smallest ≤ x) ∧
    id <$> tasks (slice (addTask someFields w)) = [1; 3; 4; 6; 7] ++ [smallest] ∧
    deletedIds (slice (addTask someFields w)) = rest ∧
    nextId (slice (addTask someFields w)) = 8.
Proof.
  intros w.
  assert (deletedIds (slice w) ≠ []) as Hne by discriminate.
  destruct (proj2 addTask_reuses_smallest_deleted_id w someFields Hne)
    as (smallest & rest & H1 & H2 & _ & H4 & H5 & H6).
  exists smallest, rest. split_and!; try done.
  by rewrite H4, fmap_app.
Defined.

Example addTask_after_two_deletes :
  let w := addTask someFields (deleteTask 2 (deleteTask 5 initialWorld)) in
  id <$> tasks (slice w) = [1; 3; 4; 6; 7; 2] ∧ deletedIds (slice w) = [5] ∧
  nextId (slice w) = 8.
Proof. split_and!; reflexivity. Qed.

Example addTask_without_deleted_ids :
  let w := addTask someFields initialWorld in
  id <$> tasks (slice w) = [1; 2; 3; 4; 5; 6; 7; 8] ∧ nextId (slice w) = 9.
Proof. split; reflexivity. Qed.

(** ** Statistics *)

Lemma sumValues_empty : sumValues ∅ = 0.
Proof. unfold sumValues. by rewrite map_fold_empty. Qed.

Lemma sumValues_insert_fresh (m : gmap string Z) (key : string) (v : Z) :
  m !! key = None → sumValues (<[key := v]> m) = v + sumValues m.
Proof.
  intros Hfresh. unfold sumValues.
  rewrite map_fold_insert_L; [done| |done]. intros; lia.
Qed.

Lemma sumValues_delete (m : gmap string Z) (key : string) (v : Z) :
  m !! key = Some v → sumValues m = v + sumValues (delete key m).
Proof.
  intros Hkey. unfold sumValues.
  rewrite (map_fold_delete_L _ _ key v m); [done| |done]. intros; lia.
Qed.

(** Counting one more item under a key adds one to the sum of all
    counts. *)
Lemma sumValues_countUp (acc : gmap string Z) (key : string) :
  sumValues (countUp acc key) = sumValues acc + 1.
Proof.
  unfold countUp. destruct (acc !! key) as [v|] eqn:Hkey; simpl.
  - rewrite <- insert_delete_eq.
    rewrite sumValues_insert_fresh by apply lookup_delete_eq.
    rewrite (sumValues_delete acc key v) by done. lia.
  - rewrite sumValues_insert_fresh by done. lia.
Qed.

Lemma sumValues_tally {A} (keyOf : A → string) (l : list A) (acc : gmap string Z) :
  sumValues (foldl (λ acc x, countUp acc (keyOf x)) acc l)
  = sumValues acc + Z.of_nat (length l).
Proof.
  revert acc. induction l as [|x l IH]; intros acc; simpl; [lia|].
  rewrite IH, sumValues_countUp. lia.
Qed.

(** C5: for every tasks collection the aggregates agree: completed plus
    pending is the total, and the counts per category, like the counts per
    priority, add up to the total. *)
Theorem statistics_consistent (s : TasksState) :
  completedTasks (selectTaskStatistics s) + pendingTasks (selectTaskStatistics s)
  = totalTasks (selectTaskStatistics s) ∧
  sumValues (categoryCounts (selectTaskStatistics s))
  = totalTasks (selectTaskStatistics s) ∧
  sumValues (priorityCounts (selectTaskStatistics s))
  = totalTasks (selectTaskStatistics s) ∧
  totalTasks (selectTaskStatistics s) = Z.of_nat (length (tasks s)).
Proof.
  unfold selectTaskStatistics. simpl. split_and!; [lia| | |done].
  - rewrite (sumValues_tally (λ t, categoryName (category t))).
    rewrite sumValues_empty. lia.
  - rewrite (sumValues_tally (λ t, priorityName (priority t))).
    rewrite sumValues_empty. lia.
Qed.

Example statistics_sample :
  let st := selectTaskStatistics (slice initialWorld) in
  totalTasks st = 7 ∧ completedTasks st = 2 ∧ pendingTasks st = 5 ∧
  categoryCounts st !! "work" = Some 3 ∧ categoryCounts st !! "other" = None ∧
  priorityCounts st !! "high" = Some 3 ∧ priorityCounts st !! "medium" = Some 3 ∧
  priorityCounts st !! "low" = Some 1.
Proof. split_and!; reflexivity. Qed.

(** ** Search *)

Lemma append_cons (a : ascii) (s t : string) :
  String a s +:+ t = String a (s +:+ t).
Proof. reflexivity. Qed.

Lemma append_nil_l (t : string) : "" +:+ t = t.
Proof. reflexivity. Qed.

Lemma append_eq_nil (s t : string) : s +:+ t = "" → s = "" ∧ t = "".
Proof. destruct s; [done|]. by rewrite append_cons. Qed.

Lemma allWhiteSpace_trimStart (s : string) :
  allWhiteSpace (trimStart s) = allWhiteSpace s.
Proof.
  induction s as [|c s IH]; simpl; [done|].
  destruct (isWhiteSpace c) eqn:Hc; simpl; [done|]. by rewrite Hc.
Qed.

Lemma trimEnd_empty_iff (s : string) :
  trimEnd s = "" ↔ allWhiteSpace s = true.
Proof.
  induction s as [|c s IH]; simpl; [done|].
  destruct (trimEnd s) as [|d rest].
  - destruct (isWhiteSpace c); simpl; [tauto|done].
  - rewrite andb_true_iff. split; [done|]. intros [_ H].
    by apply IH in H.
Qed.

(** [!searchTerm.trim()] holds exactly for the empty and the
    all-white-space terms. *)
Lemma trim_empty_iff (s : string) : trim s = "" ↔ allWhiteSpace s = true.
Proof. unfold trim. by rewrite trimEnd_empty_iff, allWhiteSpace_trimStart. Qed.

Lemma startsWith_spec (s t : string) :
  startsWith s t = true ↔ ∃ after, s = t +:+ after.
Proof.
  revert s. induction t as [|b t IH]; intros s.
  - destruct s; simpl; (split; [intros _; by eexists|done]).
  - destruct s as [|a s]; simpl.
    + split; [done|]. by intros [after ?].
    + rewrite andb_true_iff, bool_decide_eq_true, IH. split.
      * intros [-> [after ->]]. by exists after.
      * intros [after [= -> ->]]. eauto.
Qed.

Lemma includes_spec (s t : string) :
  includes s t = true ↔ occursIn t s.
Proof.
  unfold occursIn. induction s as [|a s IH]; cbn [includes].
  - rewrite orb_false_r, startsWith_spec. split.
    + intros [after H]. by exists "", after.
    + intros (before & after & H). symmetry in H.
      apply append_eq_nil in H as [-> H].
      apply append_eq_nil in H as [-> ->]. by exists "".
  - rewrite orb_true_iff, IH, (startsWith_spec (String a s)). split.
    + intros [[after H]|(before & after & ->)].
      * by exists "", after.
      * by exists (String a before), after.
    + intros ([|b before] & after & H).
      * left. by exists after.
      * right. rewrite append_cons in H. injection H as -> ->. eauto.
Qed.

Lemma filter_none {A} (P : A → Prop) `{HPdec : !∀ x, Decision (P x)} (l : list A) :
  (∀ x, x ∈ l → ¬ P x) → filter P l = [].
Proof.
  intros Hnone. destruct (filter P l) as [|x l'] eqn:E; [done|].
  assert (x ∈ filter P l) as [HP Hx]%list_elem_of_filter by (rewrite E; left).
  by destruct (Hnone x Hx).
Qed.

(** C8: an empty or all-white-space term returns the whole collection; any
    other term returns exactly the tasks, in collection order, whose
    lower-cased title contains the lower-cased term, and so nothing when no
    title matches. *)
Theorem search_by_term (s : TasksState) (term : string) :
  (allWhiteSpace term = true → selectTasksBySearchTerm term s = tasks s) ∧
  (allWhiteSpace term = false →
     selectTasksBySearchTerm term s
     = filter (λ t, includes (toLowerCase (title t)) (toLowerCase term) = true)
              (tasks s) ∧
     (∀ t, t ∈ selectTasksBySearchTerm term s ↔
           t ∈ tasks s ∧ occursIn (toLowerCase term) (toLowerCase (title t))) ∧
     ((∀ t, t ∈ tasks s →
            ¬ occursIn (toLowerCase term) (toLowerCase (title t))) →
      selectTasksBySearchTerm term s = [])).
Proof.
  unfold selectTasksBySearchTerm. split.
  - intros Hws%trim_empty_iff. by rewrite bool_decide_eq_true_2.
  - intros Hws.
    rewrite bool_decide_eq_false_2
      by (rewrite trim_empty_iff; congruence).
    split; [done|]. split.
    + intros t. by rewrite list_elem_of_filter, includes_spec, (comm and).
    + intros Hnone. apply filter_none.
      intros t Ht. rewrite includes_spec. by apply Hnone.
Qed.

Lemma search_by_term_witness :
  selectTasksBySearchTerm "   " (slice initialWorld) = sampleTasks ∧
  id <$> selectTasksBySearchTerm "UPDATE" (slice initialWorld) = [3] ∧
  selectTasksBySearchTerm "xyzabcnonexistent12345" (slice initialWorld) = [].
Proof.
  split; [|split].
  - apply (proj1 (search_by_term (slice initialWorld) "   ")). reflexivity.
  - rewrite (proj1 (proj2 (search_by_term (slice initialWorld) "UPDATE") eq_refl)).
    reflexivity.
  - apply (proj2 (search_by_term (slice initialWorld) "xyzabcnonexistent12345")).
    + reflexivity.
    + intros t Ht Hocc. apply includes_spec in Hocc.
      apply list_elem_of_In in Ht. simpl in Ht.
      repeat (destruct Ht as [<-|Ht]; [discriminate Hocc|]). done.
Defined.

Example search_keeps_inner_spaces :
  id <$> selectTasksBySearchTerm " unit " (slice initialWorld) = [2] ∧
  selectTasksBySearchTerm " fix" (slice initialWorld) = [] ∧
  selectTasksBySearchTerm "" (slice initialWorld) = sampleTasks.
Proof. split_and!; reflexivity. Qed.

(** ** Sorting by a text field *)

Lemma append_nil_r (s : string) : s +:+ "" = s.
Proof. induction s as [|a s IH]; [done|]. by rewrite append_cons, IH. Qed.

Lemma unit_compare_refl (x : ascii) : Ascii.compare x x = Eq.
Proof. apply N.compare_refl. Qed.

Lemma string_compare_refl (s : string) : String.compare s s = Eq.
Proof.
  induction s as [|a s IH]; simpl; [done|]. by rewrite unit_compare_refl.
Qed.

Lemma lexLt_cons (x : ascii) (a b : string) :
  lexLt (String x a) (String x b) ↔ lexLt a b.
Proof.
  split.
  - intros [[|c common] [(d & rest & Ha & Hb)|(u & ra & v & rb & Ha & Hb & Hlt)]].
    + done.
    + rewrite append_nil_l in Ha, Hb. simplify_eq. lia.
    + rewrite append_cons in Hb. simplify_eq. exists common. left. eauto.
    + rewrite append_cons in Ha, Hb. simplify_eq. exists common. right.
      eauto 10.
  - intros [common [(d & rest & -> & ->)|(u & ra & v & rb & -> & -> & Hlt)]];
      exists (String x common); [left|right]; rewrite ?append_cons; eauto 10.
Qed.

(** The operator [<] is the dictionary order. *)
Lemma stringLt_lexLt (a b : string) : stringLt a b = true ↔ lexLt a b.
Proof.
  unfold stringLt, String.ltb. revert b.
  induction a as [|x a IH]; intros [|y b]; simpl.
  - split; [done|].
    intros [common [(c & rest & _ & H)|(u & ra & ? & ? & H & _)]];
      by destruct common.
  - split; [|done]. intros _. exists "". left. eauto.
  - split; [done|].
    intros [common [(c & rest & _ & H)|(u & ra & ? & ? & _ & H & _)]];
      by destruct common.
  - destruct (Ascii.compare x y) eqn:Hxy.
    + apply Ascii.compare_eq_iff in Hxy as ->. by rewrite IH, lexLt_cons.
    + split; [|done]. intros _. exists "". right.
      exists x, a, y, b. split_and!; [done..|].
      by apply N.compare_lt_iff.
    + split; [done|]. apply N.compare_gt_iff in Hxy.
      intros [[|c common] [(d & rest & Ha & Hb)|(u & ra & v & rb & Ha & Hb & Hlt)]].
      * done.
      * rewrite append_nil_l in Ha, Hb. simplify_eq. unfold unit_code in Hlt. lia.
      * rewrite append_cons in Hb. simplify_eq. lia.
      * rewrite append_cons in Ha, Hb. simplify_eq. lia.
Qed.

Lemma stringLt_flip (a b : string) :
  stringLt b a = match String.compare a b with Gt => true | _ => false end.
Proof.
  unfold stringLt, String.ltb. rewrite String.compare_antisym.
  by destruct (String.compare a b).
Qed.

Lemma stringLt_false_iff (a b : string) :
  stringLt b a = false ↔ String.le a b.
Proof.
  rewrite stringLt_flip. unfold String.le, String.leb.
  destruct (String.compare a b); simpl; split; done.
Qed.

Lemma not_lexLt_iff (a b : string) : ¬ lexLt b a ↔ String.le a b.
Proof.
  rewrite <- stringLt_lexLt, <- stringLt_false_iff.
  by destruct (stringLt b a).
Qed.

Section TextSort.
Variable getTime : string → Z.
Variable field : TaskField.
Hypothesis not_deadline : field ≠ FieldDeadline.
Hypothesis not_priority : field ≠ FieldPriority.

(** For a text field the comparator is the three-way comparison of the
    case-folded texts, with the sign turned for [desc]. *)
Lemma fieldComparator_text (direction : Direction) (a b : Task) :
  fieldComparator getTime field direction a b
  = match String.compare (sortKey field a) (sortKey field b), direction with
    | Eq, _ => 0
    | Lt, asc | Gt, desc => -1
    | Gt, asc | Lt, desc => 1
    end.
Proof.
  unfold fieldComparator.
  assert (∀ x y : string,
            (if stringLt x y
             then match direction with asc => -1 | desc => 1 end
             else if stringLt y x
                  then match direction with asc => 1 | desc => -1 end
                  else 0)
            = match String.compare x y, direction with
              | Eq, _ => 0
              | Lt, asc | Gt, desc => -1
              | Gt, asc | Lt, desc => 1
              end) as Hthree.
  { intros x y. rewrite (stringLt_flip x y). unfold stringLt, String.ltb.
    by destruct (String.compare x y), direction. }
  destruct field; try done; apply Hthree.
Qed.

Lemma fieldComparator_desc (a b : Task) :
  fieldComparator getTime field desc a b = - fieldComparator getTime field asc a b.
Proof.
  rewrite !fieldComparator_text. by destruct (String.compare _ _).
Qed.

Lemma fieldComparator_neg_iff (a b : Task) :
  fieldComparator getTime field asc a b < 0 ↔
  lexLt (sortKey field a) (sortKey field b).
Proof.
  rewrite fieldComparator_text, <- stringLt_lexLt.
  unfold stringLt, String.ltb.
  destruct (String.compare _ _); split; (done || lia).
Qed.

Lemma fieldComparator_pos_iff (a b : Task) :
  0 < fieldComparator getTime field asc a b ↔
  lexLt (sortKey field b) (sortKey field a).
Proof.
  rewrite fieldComparator_text, <- stringLt_lexLt, stringLt_flip.
  destruct (String.compare _ _); split; (done || lia).
Qed.

Lemma fieldComparator_order (direction : Direction) (a b : Task) :
  fieldComparator getTime field direction a b ≤ 0 ↔
  inTextOrder field direction a b.
Proof.
  rewrite fieldComparator_text. unfold inTextOrder.
  destruct direction; rewrite <- stringLt_lexLt.
  - rewrite stringLt_flip.
    destruct (String.compare _ _); split; (done || lia).
  - unfold stringLt, String.ltb.
    destruct (String.compare _ _); split; (done || lia).
Qed.

Lemma inTextOrder_le (direction : Direction) (a b : Task) :
  inTextOrder field direction a b ↔
  match direction with
  | asc => String.le (sortKey field a) (sortKey field b)
  | desc => String.le (sortKey field b) (sortKey field a)
  end.
Proof. unfold inTextOrder. destruct direction; apply not_lexLt_iff. Qed.

Lemma fieldComparator_total (direction : Direction) (a b : Task) :
  0 < fieldComparator getTime field direction a b →
  fieldComparator getTime field direction b a ≤ 0.
Proof.
  intros Hab. rewrite fieldComparator_order, inTextOrder_le.
  assert (¬ inTextOrder field direction a b) as Hnot
    by (rewrite <- fieldComparator_order; lia).
  rewrite inTextOrder_le in Hnot.
  destruct direction;
    by destruct (total String.le (sortKey field a) (sortKey field b)).
Qed.

Lemma fieldComparator_trans (direction : Direction) (a b c : Task) :
  fieldComparator getTime field direction a b ≤ 0 →
  fieldComparator getTime field direction b c ≤ 0 →
  fieldComparator getTime field direction a c ≤ 0.
Proof.
  rewrite !fieldComparator_order, !inTextOrder_le.
  destruct direction; intros; by etrans.
Qed.

Lemma fieldComparator_tie (direction : Direction) (a b : Task) :
  sortKey field a = sortKey field b →
  fieldComparator getTime field direction a b = 0.
Proof.
  intros Hkey. by rewrite fieldComparator_text, Hkey, string_compare_refl.
Qed.
End TextSort.

(** C6: for a field other than the deadline and the priority (the id, the
    title, the status, the category) [selectTasksSortedByField] rearranges
    the collection into the dictionary order of the fields' lower-cased
    texts, tasks with equal texts keeping their order; [desc] turns the sign
    of the comparator and sorts by the comparator so negated.  The text a
    task is sorted by is its title, the name of its status, the name of its
    category, or the decimal numeral of its id, lower-cased: titles that
    differ only in case tie, and id 10 sorts before id 2.  The sample data
    and a collection of mixed-case titles come out in the orders given. *)
Theorem sortedByField_text_order (getTime : string → Z) (field : TaskField)
    (direction : Direction) (s : TasksState) :
  field ≠ FieldDeadline → field ≠ FieldPriority →
  selectTasksSortedByField getTime field direction s ≡ₚ tasks s ∧
  StronglySorted (inTextOrder field direction)
                 (selectTasksSortedByField getTime field direction s) ∧
  (∀ key, filter (λ t, sortKey field t = key)
                 (selectTasksSortedByField getTime field direction s)
          = filter (λ t, sortKey field t = key) (tasks s)) ∧
  (∀ a b, fieldComparator getTime field asc a b < 0 ↔
          lexLt (sortKey field a) (sortKey field b)) ∧
  (∀ a b, 0 < fieldComparator getTime field asc a b ↔
          lexLt (sortKey field b) (sortKey field a)) ∧
  (∀ a b, fieldComparator getTime field desc a b
          = - fieldComparator getTime field asc a b) ∧
  selectTasksSortedByField getTime field desc s
  = arraySort (λ a b, - fieldComparator getTime field asc a b) (tasks s) ∧
  (∀ t, sortKey FieldId t = toLowerCase (numberToString (id t))) ∧
  id <$> selectTasksSortedByField getTime FieldId asc
           {| tasks := [makeTask 2 someFields; makeTask 10 someFields];
              nextId := 11; deletedIds := [] |}
  = [10; 2] ∧
  (∀ t, sortKey FieldTitle t = toLowerCase (title t)) ∧
  (∀ t, sortKey FieldStatus t
        = match status t with
          | pending => "pending" | completed => "completed"
          end) ∧
  (∀ t, sortKey FieldCategory t
        = match category t with
          | work => "work" | personal => "personal" | shopping => "shopping"
          | health => "health" | finance => "finance" | other => "other"
          end) ∧
  toLowerCase "Fix LOGIN Bug, Part 42: README & Tests"
  = "fix login bug, part 42: readme & tests" ∧
  (∀ a b, toLowerCase (title a) = toLowerCase (title b) →
          fieldComparator getTime FieldTitle asc a b = 0 ∧
          fieldComparator getTime FieldTitle desc a b = 0) ∧
  id <$> selectTasksSortedByField getTime FieldTitle asc mixedCaseTasks
  = [2; 4; 1; 5; 3] ∧
  id <$> selectTasksSortedByField getTime FieldTitle desc mixedCaseTasks
  = [3; 1; 5; 2; 4] ∧
  id <$> selectTasksSortedByField getTime FieldTitle asc
           {| tasks := sampleTasks; nextId := 8; deletedIds := [] |}
  = [5; 4; 1; 7; 6; 3; 2] ∧
  id <$> selectTasksSortedByField getTime FieldStatus asc
           {| tasks := sampleTasks; nextId := 8; deletedIds := [] |}
  = [2; 6; 1; 3; 4; 5; 7] ∧
  id <$> selectTasksSortedByField getTime FieldCategory asc
           {| tasks := sampleTasks; nextId := 8; deletedIds := [] |}
  = [7; 6; 4; 5; 1; 2; 3] ∧
  id <$> selectTasksSortedByField getTime FieldCategory desc
           {| tasks := sampleTasks; nextId := 8; deletedIds := [] |}
  = [1; 2; 3; 5; 4; 6; 7].
Proof.
  intros Hd Hp. unfold selectTasksSortedByField. split_and!.
  - apply arraySort_perm.
  - eapply StronglySorted_mono; [|apply arraySort_sorted].
    + intros a b. by apply fieldComparator_order.
    + by apply fieldComparator_total.
    + by apply fieldComparator_trans.
  - intros key. apply arraySort_stable.
    intros a b _ _ Ha Hpos Hb.
    rewrite (fieldComparator_tie getTime field Hd Hp direction a b) in Hpos
      by congruence.
    lia.
  - by apply fieldComparator_neg_iff.
  - by apply fieldComparator_pos_iff.
  - by apply fieldComparator_desc.
  - apply arraySort_ext. intros a b _ _.
    by rewrite fieldComparator_desc.
  - done.
  - reflexivity.
  - done.
  - intros t. unfold sortKey. simpl. by destruct (status t).
  - intros t. unfold sortKey. simpl. by destruct (category t).
  - reflexivity.
  - intros a b Hfold.
    split; by apply fieldComparator_tie.
  - reflexivity.
  - reflexivity.
  - reflexivity.
  - reflexivity.
  - reflexivity.
  - reflexivity.
Qed.

Lemma sortedByField_text_order_witness :
  selectTasksSortedByField (λ _, 0) FieldTitle desc (slice initialWorld)
  ≡ₚ sampleTasks ∧
  StronglySorted (inTextOrder FieldTitle desc)
    (selectTasksSortedByField (λ _, 0) FieldTitle desc (slice initialWorld)) ∧
  id <$> selectTasksSortedByField (λ _, 0) FieldTitle asc (slice initialWorld)
  = [5; 4; 1; 7; 6; 3; 2] ∧
  id <$> selectTasksSortedByField (λ _, 0) FieldTitle asc mixedCaseTasks
  = [2; 4; 1; 5; 3] ∧
  id <$> selectTasksSortedByField (λ _, 0) FieldTitle desc mixedCaseTasks
  = [3; 1; 5; 2; 4].
Proof.
  assert (FieldTitle ≠ FieldDeadline) as Hd by discriminate.
  assert (FieldTitle ≠ FieldPriority) as Hp by discriminate.
  destruct (sortedByField_text_order (λ _, 0) FieldTitle desc
              (slice initialWorld) Hd Hp)
    as (H1 & H2 & _ & _ & _ & _ & _ & _ & _ & _ & _ & _ & _ & _
        & Hasc & Hdesc & Hsample & _).
  split_and!; [exact H1|exact H2|exact Hsample|exact Hasc|exact Hdesc].
Defined.

Example sort_sample_by_title :
  id <$> selectTasksSortedByField (λ _, 0) FieldTitle asc (slice initialWorld)
  = [5; 4; 1; 7; 6; 3; 2] ∧
  id <$> selectTasksSortedByField (λ _, 0) FieldTitle desc (slice initialWorld)
  = [2; 3; 6; 7; 1; 4; 5].
Proof. split; reflexivity. Qed.

(** Equal keys keep their order in both directions, so [desc] is not the
    reverse of [asc]. *)
Example sort_sample_by_status :
  id <$> selectTasksSortedByField (λ _, 0) FieldStatus asc (slice initialWorld)
  = [2; 6; 1; 3; 4; 5; 7] ∧
  id <$> selectTasksSortedByField (λ _, 0) FieldStatus desc (slice initialWorld)
  = [1; 3; 4; 5; 7; 2; 6].
Proof. split; reflexivity. Qed.

Example sort_ids_as_text :
  let s := {| tasks := (λ i, makeTask i someFields) <$> [1; 2; 10; 11; 100; 20];
              nextId := 101; deletedIds := [] |} in
  id <$> selectTasksSortedByField (λ _, 0) FieldId asc s = [1; 10; 100; 11; 2; 20] ∧
  id <$> selectTasksSortedByField (λ _, 0) FieldId desc s = [20; 2; 11; 100; 10; 1].
Proof. split; reflexivity. Qed.

(** ** Reordering *)

Lemma positionOf_None (i : Z) (ids : list Z) :
  positionOf i ids = None ↔ i ∉ ids.
Proof.
  induction ids as [|j ids IH]; simpl.
  - split; [|done]. intros _. apply not_elem_of_nil.
  - rewrite not_elem_of_cons. destruct (positionOf i ids) as [k|].
    + split; [done|]. intros [_ Hout]. by apply IH in Hout.
    + destruct (decide (j = i)) as [->|Hne].
      * split; [done|]. by intros [? _].
      * split; [|done]. intros _. split; [congruence|]. by apply IH.
Qed.

Lemma positionOf_lt (i : Z) (ids : list Z) (k : nat) :
  positionOf i ids = Some k → (k < length ids)%nat.
Proof.
  revert k. induction ids as [|j ids IH]; intros k; simpl; [done|].
  destruct (positionOf i ids) as [k'|].
  - intros [= <-]. specialize (IH k' eq_refl). lia.
  - destruct (decide (j = i)); [|done]. intros [= <-]. lia.
Qed.

Lemma positionOf_lookup (i : Z) (ids : list Z) (k : nat) :
  positionOf i ids = Some k → ids !! k = Some i.
Proof.
  revert k. induction ids as [|j ids IH]; intros k; simpl; [done|].
  destruct (positionOf i ids) as [k'|].
  - intros [= <-]. by apply IH.
  - destruct (decide (j = i)) as [->|]; [|done]. by intros [= <-].
Qed.

(** In a payload without repetitions the position is the index. *)
Lemma positionOf_NoDup (i : Z) (ids : list Z) (k : nat) :
  NoDup ids → ids !! k = Some i → positionOf i ids = Some k.
Proof.
  intros Hnodup Hk.
  destruct (positionOf i ids) as [k'|] eqn:Hpos.
  - apply positionOf_lookup in Hpos. f_equal.
    by eapply NoDup_lookup.
  - apply positionOf_None in Hpos. destruct Hpos.
    by eapply list_elem_of_lookup_2.
Qed.

Lemma keepLast_NoDup (ids : list Z) : NoDup ids → keepLast ids = ids.
Proof.
  induction 1 as [|i ids Hi _ IH]; simpl; [done|].
  by rewrite decide_False, IH.
Qed.

Lemma orderMap_from (ids : list Z) (m : gmap Z Z) (n : nat) (i : Z) :
  foldl (λ m entry, <[entry.1 := entry.2]> m) m
        (imap (λ index j, (j, Z.of_nat (n + index))) ids) !! i
  = match positionOf i ids with
    | Some k => Some (Z.of_nat (n + k))
    | None => m !! i
    end.
Proof.
  revert m n. induction ids as [|j ids IH]; intros m n; simpl; [done|].
  rewrite (imap_ext _ (λ index j, (j, Z.of_nat (S n + index))))
    by (intros; unfold compose; f_equal; lia).
  rewrite IH. destruct (positionOf i ids) as [k|].
  - f_equal; lia.
  - rewrite lookup_insert. destruct (decide (j = i)); [|done].
    f_equal; lia.
Qed.

(** What the map built by [updateTaskOrder] answers. *)
Lemma orderMap_lookup (ids : list Z) (i : Z) :
  orderMap ids !! i = Z.of_nat <$> positionOf i ids.
Proof.
  unfold orderMap. rewrite (orderMap_from ids ∅ 0 i).
  by destruct (positionOf i ids).
Qed.

Lemma orderOf_position (ids : list Z) (t : Task) :
  orderOf (orderMap ids) t
  = match positionOf (id t) ids with
    | Some k => Z.of_nat k
    | None => MAX_SAFE_INTEGER
    end.
Proof.
  unfold orderOf. rewrite orderMap_lookup. by destruct (positionOf _ _).
Qed.

Lemma orderOf_listed (ids : list Z) (t : Task) :
  id t ∈ ids →
  ∃ k, positionOf (id t) ids = Some k ∧ orderOf (orderMap ids) t = Z.of_nat k ∧
       (k < length ids)%nat.
Proof.
  intros Hin. rewrite orderOf_position.
  destruct (positionOf (id t) ids) as [k|] eqn:Hpos.
  - exists k. split_and!; [done..|]. by eapply positionOf_lt.
  - by apply positionOf_None in Hpos.
Qed.

Lemma orderOf_unlisted (ids : list Z) (t : Task) :
  id t ∉ ids → orderOf (orderMap ids) t = MAX_SAFE_INTEGER.
Proof.
  intros Hout%positionOf_None. by rewrite orderOf_position, Hout.
Qed.

Lemma orderOf_cons_listed (i : Z) (ids : list Z) (t : Task) :
  id t ∈ ids →
  orderOf (orderMap (i :: ids)) t = orderOf (orderMap ids) t + 1.
Proof.
  intros (k & Hpos & -> & _)%orderOf_listed.
  rewrite orderOf_position. simpl. rewrite Hpos. lia.
Qed.

Lemma orderOf_cons_head (i : Z) (ids : list Z) (t : Task) :
  i ∉ ids → id t = i → orderOf (orderMap (i :: ids)) t = 0.
Proof.
  intros Hout%positionOf_None Hid.
  rewrite orderOf_position, Hid. simpl. by rewrite Hout, decide_True.
Qed.

(** Sorting the listed tasks by the recorded positions lists them id by id
    in payload order. *)
Lemma sort_listed (ids : list Z) (ts : list Task) :
  arraySort (λ a b, orderOf (orderMap ids) a - orderOf (orderMap ids) b)
            (filter (λ t, id t ∈ ids) ts)
  = listedTasks ids ts.
Proof.
  unfold listedTasks. induction ids as [|i ids IH]; simpl.
  - rewrite filter_none; [done|]. intros t _. apply not_elem_of_nil.
  - assert (arraySort (λ a b, orderOf (orderMap (i :: ids)) a
                              - orderOf (orderMap (i :: ids)) b)
                      (filter (λ t, id t ∈ ids) ts)
            = concat ((λ j, filter (hasId j) ts) <$> keepLast ids)) as Hrest.
    { rewrite <- IH. apply arraySort_ext.
      intros a b [Ha _]%list_elem_of_filter [Hb _]%list_elem_of_filter.
      rewrite !orderOf_cons_listed by done. split; lia. }
    destruct (decide (i ∈ ids)) as [Hin|Hout].
    + rewrite <- Hrest. f_equal. apply list_filter_iff.
      intros t. rewrite elem_of_cons. split; [|by right].
      by intros [->|?].
    + rewrite fmap_cons, concat_cons.
      rewrite (arraySort_partition _ (hasId i)).
      * rewrite !list_filter_filter. f_equal.
        -- rewrite arraySort_in_order.
           ++ apply list_filter_iff. intros t. unfold hasId.
              rewrite elem_of_cons. split; [by intros [? _]|]. auto.
           ++ intros a b [[Ha _] _]%list_elem_of_filter
                         [[Hb _] _]%list_elem_of_filter.
              rewrite !orderOf_cons_head by done. lia.
        -- rewrite <- Hrest. f_equal. apply list_filter_iff.
           intros t. unfold hasId. rewrite elem_of_cons. split.
           ++ by intros [? [?|?]].
           ++ intros Hin. split; [|by right].
              intros Heq. by rewrite Heq in Hin.
      * intros a b _ [Hbin _]%list_elem_of_filter Hai Hbi.
        unfold hasId in Hai, Hbi.
        rewrite (orderOf_cons_head i ids a) by done.
        apply elem_of_cons in Hbin as [?|Hbin]; [done|].
        rewrite (orderOf_cons_listed i ids b) by done.
        destruct (orderOf_listed ids b Hbin) as (k & _ & -> & _). lia.
Qed.

(** C3: [updateTaskOrder] puts the tasks whose id is listed in the payload
    first, in the order of the positions of their ids in the payload, and
    after them the tasks whose id is not listed, in their previous order.
    The position of an id is the index the order map records for it, which
    is the index of the id in a payload without repetitions (and the last
    one otherwise).  On the sample data [updateTaskOrder([7, 1])] gives the
    ids 7, 1, 2, 3, 4, 5, 6. *)
Theorem updateTaskOrder_listed_first (w : World) (ids : list Z) :
  Z.of_nat (length ids) ≤ MAX_SAFE_INTEGER →
  tasks (slice (updateTaskOrder ids w))
  = listedTasks ids (tasks (slice w)) ++ unlistedTasks ids (tasks (slice w)) ∧
  listedTasks ids (tasks (slice w))
  ≡ₚ filter (λ t, id t ∈ ids) (tasks (slice w)) ∧
  (∀ i, orderMap ids !! i = Z.of_nat <$> positionOf i ids) ∧
  (NoDup ids →
     keepLast ids = ids ∧
     ∀ k i, ids !! k = Some i → orderMap ids !! i = Some (Z.of_nat k)) ∧
  id <$> tasks (slice (updateTaskOrder [7; 1] initialWorld))
  = [7; 1; 2; 3; 4; 5; 6].
Proof.
  intros Hlen. split_and!.
  - simpl. rewrite (arraySort_partition _ (λ t, id t ∈ ids)).
    + rewrite sort_listed. f_equal. apply arraySort_in_order.
      intros a b [Ha _]%list_elem_of_filter [Hb _]%list_elem_of_filter.
      rewrite !orderOf_unlisted by done. lia.
    + intros a b _ _ (k & _ & -> & Hk)%orderOf_listed Hb.
      rewrite orderOf_unlisted by done. lia.
  - rewrite <- sort_listed. apply arraySort_perm.
  - apply orderMap_lookup.
  - intros Hnodup. split; [by apply keepLast_NoDup|].
    intros k i Hk. by rewrite orderMap_lookup, (positionOf_NoDup i ids k).
  - reflexivity.
Qed.

Lemma updateTaskOrder_listed_first_witness :
  id <$> tasks (slice (updateTaskOrder [4; 9; 2] initialWorld))
  = [4; 2] ++ [1; 3; 5; 6; 7].
Proof.
  assert (Z.of_nat (length [4; 9; 2]) ≤ MAX_SAFE_INTEGER) as Hlen
    by (vm_compute; discriminate).
  rewrite (proj1 (updateTaskOrder_listed_first initialWorld [4; 9; 2] Hlen)).
  reflexivity.
Defined.

Example updateTaskOrder_repeated_id :
  id <$> tasks (slice (updateTaskOrder [1; 2; 1] initialWorld))
  = [2; 1; 3; 4; 5; 6; 7] ∧
  keepLast [1; 2; 1] = [2; 1] ∧
  orderMap [1; 2; 1] !! 1 = Some 2.
Proof. split_and!; reflexivity. Qed.

(** ** Uniqueness of ids *)

Lemma taskIds_filter (i : Z) (ts : list Task) :
  id <$> filter (λ t, id t ≠ i) ts = filter (λ j, j ≠ i) (id <$> ts).
Proof.
  induction ts as [|t ts IH]; [done|].
  rewrite fmap_cons, !filter_cons.
  destruct (decide (id t ≠ i)); by rewrite ?fmap_cons, IH.
Qed.

Lemma updateTask_ids (p : TaskPatch) (w : World) :
  taskIds (slice (updateTask p w)) = taskIds (slice w) ∧
  nextId (slice (updateTask p w)) = nextId (slice w) ∧
  deletedIds (slice (updateTask p w)) = deletedIds (slice w).
Proof.
  unfold updateTask, taskIds.
  destruct (findIndex _ _) as [k|] eqn:Hk; [|done].
  apply findIndex_Some in Hk as (t & Ht & Hid & _). rewrite Ht. simpl.
  split; [|done]. rewrite list_fmap_insert. simpl. rewrite <- Hid.
  apply list_insert_id. by rewrite list_lookup_fmap, Ht.
Qed.

Lemma toggleTaskStatus_ids (i : Z) (w : World) :
  taskIds (slice (toggleTaskStatus i w)) = taskIds (slice w) ∧
  nextId (slice (toggleTaskStatus i w)) = nextId (slice w) ∧
  deletedIds (slice (toggleTaskStatus i w)) = deletedIds (slice w).
Proof.
  unfold toggleTaskStatus, taskIds.
  destruct (findIndex _ _) as [k|] eqn:Hk; [|done].
  apply findIndex_Some in Hk as (t & Ht & Hid & _). rewrite Ht. simpl.
  split; [|done]. rewrite list_fmap_insert. simpl.
  apply list_insert_id. by rewrite list_lookup_fmap, Ht.
Qed.

Lemma idsWellFormed_same (s s' : TasksState) :
  taskIds s' = taskIds s ∧ nextId s' = nextId s ∧ deletedIds s' = deletedIds s →
  idsWellFormed s → idsWellFormed s'.
Proof. unfold idsWellFormed. by intros (-> & -> & ->). Qed.

Lemma idsWellFormed_sample :
  idsWellFormed {| tasks := sampleTasks; nextId := 8; deletedIds := [] |}.
Proof.
  unfold idsWellFormed, taskIds. simpl. split_and!.
  - apply (bool_decide_unpack _). by vm_compute.
  - constructor.
  - by intros i ?%not_elem_of_nil.
  - by intros i ?%not_elem_of_nil.
  - intros i Hi. apply list_elem_of_In in Hi. simpl in Hi.
    repeat (destruct Hi as [<-|Hi]; [lia|]). done.
Qed.

Lemma idsWellFormed_addTask (fields : TaskFields) (w : World) :
  idsWellFormed (slice w) → idsWellFormed (slice (addTask fields w)).
Proof.
  intros (Hlive & Hdel & Hapart & Hdel_lt & Hlive_lt).
  unfold addTask.
  destruct (arraySort _ (deletedIds (slice w))) as [|m rest] eqn:Hsort.
  - apply arraySort_nil_iff in Hsort.
    unfold idsWellFormed, taskIds in *. simpl. rewrite Hsort, fmap_app. simpl.
    split_and!.
    + apply NoDup_app. split_and!; [done| |apply NoDup_singleton].
      intros i Hi ->%list_elem_of_singleton. specialize (Hlive_lt _ Hi). lia.
    + constructor.
    + by intros i ?%not_elem_of_nil.
    + by intros i ?%not_elem_of_nil.
    + intros i [Hi| ->%list_elem_of_singleton]%elem_of_app; [|lia].
      specialize (Hlive_lt _ Hi). lia.
  - apply numeric_sort_head in Hsort as (Hm & _ & Hperm).
    rewrite <- Hperm in Hdel. apply NoDup_cons in Hdel as [Hm_rest Hrest].
    assert (∀ i, i ∈ rest → i ∈ deletedIds (slice w)) as Hsub
      by (intros i Hi; rewrite <- Hperm; by right).
    unfold idsWellFormed, taskIds in *. simpl. rewrite fmap_app. simpl.
    split_and!.
    + apply NoDup_app. split_and!; [done| |apply NoDup_singleton].
      intros i Hi ->%list_elem_of_singleton. by apply (Hapart m).
    + done.
    + intros i Hi [Hlive'| ->%list_elem_of_singleton]%elem_of_app.
      * by apply (Hapart i); [apply Hsub|].
      * done.
    + intros i Hi. by apply Hdel_lt, Hsub.
    + intros i [Hi| ->%list_elem_of_singleton]%elem_of_app; auto.
Qed.

Lemma idsWellFormed_deleteTask (i : Z) (w : World) :
  i ∈ taskIds (slice w) →
  idsWellFormed (slice w) → idsWellFormed (slice (deleteTask i w)).
Proof.
  intros Hi (Hlive & Hdel & Hapart & Hdel_lt & Hlive_lt).
  unfold idsWellFormed, taskIds in *. simpl. rewrite taskIds_filter.
  split_and!.
  - by apply NoDup_filter.
  - apply NoDup_app. split_and!; [done| |apply NoDup_singleton].
    intros j Hj ->%list_elem_of_singleton. by apply (Hapart i).
  - intros j [Hj| ->%list_elem_of_singleton]%elem_of_app
             [Hne Hlive']%list_elem_of_filter; [|done].
    by apply (Hapart j).
  - intros j [Hj| ->%list_elem_of_singleton]%elem_of_app; auto.
  - intros j [_ Hj]%list_elem_of_filter. auto.
Qed.

Lemma idsWellFormed_updateTaskOrder (ids : list Z) (w : World) :
  idsWellFormed (slice w) → idsWellFormed (slice (updateTaskOrder ids w)).
Proof.
  assert (taskIds (slice (updateTaskOrder ids w)) ≡ₚ taskIds (slice w)) as Hperm.
  { unfold taskIds. simpl. by rewrite arraySort_perm. }
  unfold idsWellFormed. simpl nextId. simpl deletedIds.
  intros (Hlive & Hdel & Hapart & Hdel_lt & Hlive_lt).
  split_and!; [by rewrite Hperm|done| |done|].
  - intros i Hi. rewrite Hperm. auto.
  - intros i Hi. rewrite Hperm in Hi. auto.
Qed.

Lemma resetToSampleData_slice (w : World) :
  slice (resetToSampleData w)
  = {| tasks := sampleTasks; nextId := 8; deletedIds := [] |}.
Proof.
  unfold resetToSampleData, loadTasksFromStorage. simpl.
  by rewrite lookup_delete_ne, lookup_delete_eq.
Qed.

(** Each action that targets a live task keeps the bookkeeping intact. *)
Lemma idsWellFormed_reducer (a : Action) (w : World) :
  targetsLiveTask a (slice w) →
  idsWellFormed (slice w) → idsWellFormed (slice (reducer a w)).
Proof.
  destruct a as [fields|p|i|i|ids|]; simpl; intros Hlive Hwf.
  - by apply idsWellFormed_addTask.
  - eapply idsWellFormed_same; [apply updateTask_ids|done].
  - eapply idsWellFormed_same; [apply toggleTaskStatus_ids|done].
  - by apply idsWellFormed_deleteTask.
  - by apply idsWellFormed_updateTaskOrder.
  - rewrite resetToSampleData_slice. apply idsWellFormed_sample.
Qed.

Lemma dispatchAll_app (xs ys : list Action) (w : World) :
  dispatchAll (xs ++ ys) w = dispatchAll ys (dispatchAll xs w).
Proof. unfold dispatchAll. apply foldl_app. Qed.

Lemma allTargetLiveTasks_take (n : nat) (actions : list Action) (w : World) :
  allTargetLiveTasks actions w → allTargetLiveTasks (take n actions) w.
Proof.
  revert n w. induction actions as [|a actions IH]; intros [|n] w; simpl; try done.
  intros [? ?]. split; [done|]. by apply IH.
Qed.

Lemma idsWellFormed_dispatchAll (actions : list Action) (w : World) :
  allTargetLiveTasks actions w →
  idsWellFormed (slice w) → idsWellFormed (slice (dispatchAll actions w)).
Proof.
  revert w. induction actions as [|a actions IH]; intros w; simpl; [done|].
  intros [Ha Hrest] Hwf. apply IH; [done|]. by apply idsWellFormed_reducer.
Qed.

(** Ids stay unique, after every step, along any sequence of actions whose
    deletes each name a task that is in the collection at that point. *)
Lemma ids_unique_when_deletes_target_live_tasks (actions : list Action) (n : nat) :
  allTargetLiveTasks actions initialWorld →
  NoDup (taskIds (slice (dispatchAll (take n actions) initialWorld))).
Proof.
  intros Hlive.
  apply (idsWellFormed_dispatchAll (take n actions) initialWorld).
  - by apply allTargetLiveTasks_take.
  - apply idsWellFormed_sample.
Qed.

(** C1: the ids do not stay unique along every sequence of actions.  From
    the sample data, deleting id 8, which no task has, parks 8 in
    [deletedIds]; the next [addTask] reuses 8 and the one after draws 8
    again from [nextId], so two tasks carry id 8.  Deleting a live id twice
    has the same effect. *)
Theorem duplicate_id_after_delete_of_absent_id :
  taskIds (slice (dispatchAll
    [DeleteTask 8; AddTask someFields; AddTask someFields] initialWorld))
  = [1; 2; 3; 4; 5; 6; 7; 8; 8] ∧
  ¬ NoDup (taskIds (slice (dispatchAll
    [DeleteTask 8; AddTask someFields; AddTask someFields] initialWorld))) ∧
  taskIds (slice (dispatchAll
    [DeleteTask 3; DeleteTask 3; AddTask someFields; AddTask someFields]
    initialWorld))
  = [1; 2; 4; 5; 6; 7; 3; 3].
Proof.
  split_and!; [reflexivity| |reflexivity].
  intros Hnodup.
  assert (taskIds (slice (dispatchAll
    [DeleteTask 8; AddTask someFields; AddTask someFields] initialWorld))
    = [1; 2; 3; 4; 5; 6; 7] ++ [8; 8]) as Hids by reflexivity.
  rewrite Hids in Hnodup. apply NoDup_app in Hnodup as (_ & _ & H88).
  apply NoDup_cons in H88 as [H8 _]. apply H8. left.
Qed.

(** ** Persistence *)

Lemma saveToLocalStorage_slice (w : World) :
  slice (saveToLocalStorage w) = slice w.
Proof. done. Qed.

Lemma saveToLocalStorage_throws (w : World) :
  setItemThrows (saveToLocalStorage w) = setItemThrows w.
Proof. done. Qed.

Lemma saveState_accepted
    (throws : gmap string StoredItem → string → StoredItem → bool)
    (s : TasksState) (contents : gmap string StoredItem) :
  (∀ c key item, throws c key item = false) →
  saveState throws s contents
  = (<["nextId" := DecimalNumber (nextId s)]>
       (<["tasks" := JsonTasks (tasks s)]> contents),
     savedCalls s).
Proof. intros Hok. unfold saveState. by rewrite !Hok. Qed.

Lemma saveToLocalStorage_log (w : World) :
  storageNeverThrows w →
  storageLog (saveToLocalStorage w) = storageLog w ++ savedCalls (slice w).
Proof.
  intros Hok. unfold saveToLocalStorage. simpl.
  by rewrite saveState_accepted.
Qed.

Lemma saveToLocalStorage_in_sync (w : World) :
  storageNeverThrows w → storageInSync (saveToLocalStorage w).
Proof.
  intros Hok. unfold storageInSync, loadTasksFromStorage. simpl.
  rewrite saveState_accepted by done. simpl.
  rewrite lookup_insert_ne by done. by rewrite !lookup_insert_eq.
Qed.

Lemma resetToSampleData_storage (w : World) :
  localStorage (resetToSampleData w)
  = delete "nextId" (delete "tasks" (localStorage w)) ∧
  storageLog (resetToSampleData w)
  = storageLog w ++ [RemoveItem "tasks"; RemoveItem "nextId"].
Proof.
  unfold resetToSampleData. destruct (loadTasksFromStorage _). simpl.
  by rewrite <- app_assoc.
Qed.

Lemma resetToSampleData_throws (w : World) :
  setItemThrows (resetToSampleData w) = setItemThrows w.
Proof. unfold resetToSampleData. by destruct (loadTasksFromStorage _). Qed.

Lemma resetToSampleData_in_sync (w : World) :
  storageInSync (resetToSampleData w).
Proof.
  unfold storageInSync.
  rewrite resetToSampleData_slice, (proj1 (resetToSampleData_storage w)).
  unfold loadTasksFromStorage.
  by rewrite lookup_delete_ne, lookup_delete_eq.
Qed.

Lemma updateTask_cases (p : TaskPatch) (w : World) :
  updateTask p w = w ∨
  ∃ s', updateTask p w = saveToLocalStorage (setSlice s' w).
Proof.
  unfold updateTask. destruct (findIndex _ _) as [k|]; [|by left].
  destruct (_ !! k); [right; eauto|by left].
Qed.

Lemma toggleTaskStatus_cases (i : Z) (w : World) :
  toggleTaskStatus i w = w ∨
  ∃ s', toggleTaskStatus i w = saveToLocalStorage (setSlice s' w).
Proof.
  unfold toggleTaskStatus. destruct (findIndex _ _) as [k|]; [|by left].
  destruct (_ !! k); [right; eauto|by left].
Qed.

Lemma addTask_saves (fields : TaskFields) (w : World) :
  ∃ s', addTask fields w = saveToLocalStorage (setSlice s' w).
Proof. unfold addTask. destruct (arraySort _ _); simpl; eauto. Qed.

(** Every reducer but the reset either returns the world it was given or
    ends with [saveToLocalStorage] on the new state. *)
Lemma reducer_cases (a : Action) (w : World) :
  a ≠ ResetToSampleData →
  reducer a w = w ∨ ∃ s', reducer a w = saveToLocalStorage (setSlice s' w).
Proof.
  destruct a as [fields|p|i|i|ids|]; simpl; intros Hne.
  - right. apply addTask_saves.
  - apply updateTask_cases.
  - apply toggleTaskStatus_cases.
  - right. unfold deleteTask. eauto.
  - right. unfold updateTaskOrder. eauto.
  - done.
Qed.

Lemma setItemThrows_reducer (a : Action) (w : World) :
  setItemThrows (reducer a w) = setItemThrows w.
Proof.
  assert (a = ResetToSampleData ∨ a ≠ ResetToSampleData) as [->|Hne]
    by (destruct a; auto).
  - apply resetToSampleData_throws.
  - by destruct (reducer_cases a w Hne) as [->|[s' ->]].
Qed.

Lemma storageNeverThrows_reducer (a : Action) (w : World) :
  storageNeverThrows w → storageNeverThrows (reducer a w).
Proof. unfold storageNeverThrows. by rewrite setItemThrows_reducer. Qed.

Lemma storageInSync_reducer (a : Action) (w : World) :
  storageNeverThrows w → storageInSync w → storageInSync (reducer a w).
Proof.
  intros Hok Hsync.
  assert (a = ResetToSampleData ∨ a ≠ ResetToSampleData) as [->|Hne]
    by (destruct a; auto).
  - apply resetToSampleData_in_sync.
  - destruct (reducer_cases a w Hne) as [->|[s' ->]]; [done|].
    by apply saveToLocalStorage_in_sync.
Qed.

(** X1: storage follows the slice as long as the storage accepts the
    writes.  If no [setItem] call throws and reloading would restore the
    current tasks and [nextId], it still would after any sequence of
    actions: the state [initialState] computes from storage is the slice
    state with [deletedIds] emptied. *)
Theorem storage_in_sync_after_dispatch (actions : list Action) (w : World) :
  storageNeverThrows w →
  storageInSync w →
  storageInSync (dispatchAll actions w) ∧
  initialState (localStorage (dispatchAll actions w))
  = {| tasks := tasks (slice (dispatchAll actions w));
       nextId := nextId (slice (dispatchAll actions w));
       deletedIds := [] |}.
Proof.
  intros Hok Hsync.
  assert (storageInSync (dispatchAll actions w)) as Hend.
  { revert w Hok Hsync.
    induction actions as [|a actions IH]; intros w Hok Hsync; [done|].
    apply IH; [by apply storageNeverThrows_reducer|].
    by apply storageInSync_reducer. }
  split; [done|]. unfold initialState. by rewrite Hend.
Qed.

Lemma storage_in_sync_after_dispatch_witness :
  let w := dispatchAll [DeleteTask 2; AddTask someFields; ToggleTaskStatus 5;
                        UpdateTaskOrder [7; 1]] initialWorld in
  loadTasksFromStorage (localStorage w) = (tasks (slice w), nextId (slice w)).
Proof.
  intros w.
  assert (storageNeverThrows initialWorld) as Hok by (intros ? ? ?; reflexivity).
  assert (storageInSync initialWorld) as Hsync by reflexivity.
  exact (proj1 (storage_in_sync_after_dispatch
                  [DeleteTask 2; AddTask someFields; ToggleTaskStatus 5;
                   UpdateTaskOrder [7; 1]] initialWorld Hok Hsync)).
Defined.

(** When the writes throw, the slice moves on and the storage does not: a
    reload then loses the change. *)
Example storage_out_of_sync_when_setItem_throws :
  let w := addTask someFields (withFullStorage initialWorld) in
  length (tasks (slice w)) = 8%nat ∧ nextId (slice w) = 9 ∧
  loadTasksFromStorage (localStorage w) = (sampleTasks, 8) ∧
  storageLog w = [SetItemThrew "tasks" (JsonTasks (tasks (slice w)))].
Proof. split_and!; reflexivity. Qed.

(** X2: the storage calls of a reducer.  The reset makes the two
    [removeItem] calls and nothing else.  Every other reducer either
    returns the world untouched or runs the [try] block once on the state
    it produced: it calls [setItem] for the tasks and, only when that call
    did not throw, [setItem] for [nextId]; a call that throws stores
    nothing, so a throwing first call leaves the storage as it was and a
    throwing second call leaves the new tasks beside the old [nextId]; when
    neither throws the storage holds both.  No other key is written, and
    [deletedIds] never. *)
Theorem reducer_storage_calls (a : Action) (w : World) :
  match a with
  | ResetToSampleData =>
      storageLog (reducer a w)
      = storageLog w ++ [RemoveItem "tasks"; RemoveItem "nextId"]
  | _ =>
      reducer a w = w ∨
      let tasksItem := JsonTasks (tasks (slice (reducer a w))) in
      let nextIdItem := DecimalNumber (nextId (slice (reducer a w))) in
      let stored := <["tasks" := tasksItem]> (localStorage w) in
      (setItemThrows w (localStorage w) "tasks" tasksItem = true ∧
       storageLog (reducer a w) = storageLog w ++ [SetItemThrew "tasks" tasksItem] ∧
       localStorage (reducer a w) = localStorage w)
      ∨
      (setItemThrows w (localStorage w) "tasks" tasksItem = false ∧
       setItemThrows w stored "nextId" nextIdItem = true ∧
       storageLog (reducer a w)
       = storageLog w ++ [SetItem "tasks" tasksItem; SetItemThrew "nextId" nextIdItem] ∧
       localStorage (reducer a w) = stored)
      ∨
      (setItemThrows w (localStorage w) "tasks" tasksItem = false ∧
       setItemThrows w stored "nextId" nextIdItem = false ∧
       storageLog (reducer a w)
       = storageLog w ++ savedCalls (slice (reducer a w)) ∧
       localStorage (reducer a w) = <["nextId" := nextIdItem]> stored)
  end.
Proof.
  assert (a ≠ ResetToSampleData →
          reducer a w = w ∨
          let tasksItem := JsonTasks (tasks (slice (reducer a w))) in
          let nextIdItem := DecimalNumber (nextId (slice (reducer a w))) in
          let stored := <["tasks" := tasksItem]> (localStorage w) in
          (setItemThrows w (localStorage w) "tasks" tasksItem = true ∧
           storageLog (reducer a w)
           = storageLog w ++ [SetItemThrew "tasks" tasksItem] ∧
           localStorage (reducer a w) = localStorage w)
          ∨
          (setItemThrows w (localStorage w) "tasks" tasksItem = false ∧
           setItemThrows w stored "nextId" nextIdItem = true ∧
           storageLog (reducer a w)
           = storageLog w
             ++ [SetItem "tasks" tasksItem; SetItemThrew "nextId" nextIdItem] ∧
           localStorage (reducer a w) = stored)
          ∨
          (setItemThrows w (localStorage w) "tasks" tasksItem = false ∧
           setItemThrows w stored "nextId" nextIdItem = false ∧
           storageLog (reducer a w)
           = storageLog w ++ savedCalls (slice (reducer a w)) ∧
           localStorage (reducer a w) = <["nextId" := nextIdItem]> stored))
    as Hsave.
  { intros Hne. destruct (reducer_cases a w Hne) as [?|[s' ->]]; [by left|].
    right. simpl. unfold saveState.
    destruct (setItemThrows w (localStorage w) "tasks" _) eqn:Hfirst.
    - left. by split_and!.
    - right.
      destruct (setItemThrows w (<["tasks" := _]> (localStorage w)) "nextId" _)
        eqn:Hsecond.
      + left. by split_and!.
      + right. by split_and!. }
  destruct a; try (by apply Hsave).
  apply resetToSampleData_storage.
Qed.

Example half_written_state :
  let w0 := {| slice := slice initialWorld; localStorage := ∅; storageLog := [];
               setItemThrows := λ _ key _, bool_decide (key = "nextId") |} in
  let w := addTask someFields w0 in
  localStorage w !! "tasks" = Some (JsonTasks (tasks (slice w))) ∧
  localStorage w !! "nextId" = None ∧
  id <$> (loadTasksFromStorage (localStorage w)).1 = [1; 2; 3; 4; 5; 6; 7].
Proof. split_and!; reflexivity. Qed.

(** X3: [resetToSampleData] ends in the sample state whatever the slice and
    the storage held: the seven sample tasks, [nextId] 8, no deleted ids,
    and neither key left in storage, so that a reload gives the same
    state. *)
Theorem resetToSampleData_restores_sample (w : World) :
  slice (resetToSampleData w)
  = {| tasks := sampleTasks; nextId := 8; deletedIds := [] |} ∧
  localStorage (resetToSampleData w) !! "tasks" = None ∧
  localStorage (resetToSampleData w) !! "nextId" = None ∧
  initialState (localStorage (resetToSampleData w)) = slice (resetToSampleData w) ∧
  slice (resetToSampleData w) = slice initialWorld.
Proof.
  pose proof (resetToSampleData_in_sync w) as Hsync.
  unfold storageInSync in Hsync.
  rewrite resetToSampleData_slice in *.
  rewrite (proj1 (resetToSampleData_storage w)) in *.
  split_and!; try done.
  - by rewrite lookup_delete_ne, lookup_delete_eq.
  - by rewrite lookup_delete_eq.
  - unfold initialState. by rewrite Hsync.
Qed.

Example reset_discards_stored_data :
  let stored : gmap string StoredItem :=
    <["nextId" := DecimalNumber 102]>
      (<["tasks" := JsonTasks [makeTask 101 someFields]]> ∅) in
  let w := {| slice := initialState stored; localStorage := stored;
              storageLog := []; setItemThrows := λ _ _ _, false |} in
  id <$> tasks (slice w) = [101] ∧ nextId (slice w) = 102 ∧
  id <$> tasks (slice (resetToSampleData w)) = [1; 2; 3; 4; 5; 6; 7] ∧
  nextId (slice (resetToSampleData w)) = 8.
Proof. split_and!; reflexivity. Qed.

(** ** Identifier bookkeeping *)

Lemma addTask_new_task (fields : TaskFields) (w : World) :
  ∃ newId,
    tasks (slice (addTask fields w)) = tasks (slice w) ++ [makeTask newId fields] ∧
    ((newId ∈ deletedIds (slice w) ∧
      nextId (slice (addTask fields w)) = nextId (slice w))
     ∨
     (deletedIds (slice w) = [] ∧ newId = nextId (slice w) ∧
      nextId (slice (addTask fields w)) = nextId (slice w) + 1 ∧
      deletedIds (slice (addTask fields w)) = [])).
Proof.
  unfold addTask.
  destruct (arraySort _ (deletedIds (slice w))) as [|m rest] eqn:Hsort.
  - apply arraySort_nil_iff in Hsort. exists (nextId (slice w)). simpl.
    split; [done|]. right. by rewrite Hsort.
  - apply numeric_sort_head in Hsort as (Hm & _ & _). exists m. simpl.
    split; [done|]. by left.
Qed.

Lemma nextId_reducer (a : Action) (w : World) :
  a ≠ ResetToSampleData → nextId (slice w) ≤ nextId (slice (reducer a w)).
Proof.
  destruct a as [fields|p|i|i|ids|]; simpl; intros Hne; try done.
  - destruct (addTask_new_task fields w) as (newId & _ & [[_ ->]|(_ & _ & -> & _)]);
      lia.
  - by rewrite (proj1 (proj2 (updateTask_ids p w))).
  - by rewrite (proj1 (proj2 (toggleTaskStatus_ids i w))).
Qed.

(** X4: the identifier bookkeeping is an invariant of the slice as long as
    every delete names a task that is in the collection when it is
    dispatched: live ids stay pairwise distinct, deleted ids awaiting reuse
    stay distinct and never coincide with a live id, and every live or
    deleted id stays below [nextId]. *)
Theorem id_bookkeeping_preserved (actions : list Action) (w : World) :
  idsWellFormed (slice w) →
  allTargetLiveTasks actions w →
  idsWellFormed (slice (dispatchAll actions w)) ∧
  NoDup (taskIds (slice (dispatchAll actions w))) ∧
  (∀ i, i ∈ taskIds (slice (dispatchAll actions w)) →
        (i ∉ deletedIds (slice (dispatchAll actions w))) ∧
        (i < nextId (slice (dispatchAll actions w)))).
Proof.
  intros Hwf Hlive.
  pose proof (idsWellFormed_dispatchAll actions w Hlive Hwf) as Hend.
  split; [done|]. destruct Hend as (Hnodup & _ & Hapart & _ & Hlt).
  split; [done|]. intros i Hi. split; [|by apply Hlt].
  intros Hdel. by apply (Hapart i).
Qed.

Lemma id_bookkeeping_preserved_witness :
  NoDup (taskIds (slice (dispatchAll
    [DeleteTask 3; DeleteTask 5; AddTask someFields; ToggleTaskStatus 9;
     AddTask someFields; AddTask someFields; DeleteTask 8] initialWorld))).
Proof.
  assert (idsWellFormed (slice initialWorld)) as Hwf
    by exact idsWellFormed_sample.
  assert (allTargetLiveTasks
            [DeleteTask 3; DeleteTask 5; AddTask someFields; ToggleTaskStatus 9;
             AddTask someFields; AddTask someFields; DeleteTask 8]
            initialWorld) as Hlive.
  { repeat split; apply list_elem_of_In; vm_compute; tauto. }
  exact (proj1 (proj2 (id_bookkeeping_preserved _ _ Hwf Hlive))).
Defined.

(** X5: [nextId] never decreases along a sequence of actions that contains
    no reset. *)
Theorem nextId_never_decreases (actions : list Action) (w : World) :
  ResetToSampleData ∉ actions →
  nextId (slice w) ≤ nextId (slice (dispatchAll actions w)).
Proof.
  revert w. induction actions as [|a actions IH]; intros w Hnone; simpl; [lia|].
  apply not_elem_of_cons in Hnone as [Hne Hnone].
  etrans; [|by apply IH]. apply nextId_reducer. congruence.
Qed.

Lemma nextId_never_decreases_witness :
  8 ≤ nextId (slice (dispatchAll
         [AddTask someFields; DeleteTask 8; AddTask someFields] initialWorld)).
Proof.
  apply (nextId_never_decreases
           [AddTask someFields; DeleteTask 8; AddTask someFields] initialWorld).
  intros Hin. apply list_elem_of_In in Hin. simpl in Hin.
  destruct Hin as [?|[?|[?|[]]]]; discriminate.
Defined.

(** A reset is the one action that can lower [nextId]. *)
Example reset_lowers_nextId :
  nextId (slice (addTask someFields initialWorld)) = 9 ∧
  nextId (slice (resetToSampleData (addTask someFields initialWorld))) = 8.
Proof. split; reflexivity. Qed.

(** X6: with no deleted id awaiting reuse, [addTask] gives the new task the
    id [nextId], appends it after the existing tasks, which stay as they
    are, and advances [nextId] by one. *)
Theorem addTask_draws_nextId (fields : TaskFields) (w : World) :
  deletedIds (slice w) = [] →
  tasks (slice (addTask fields w))
  = tasks (slice w) ++ [makeTask (nextId (slice w)) fields] ∧
  nextId (slice (addTask fields w)) = nextId (slice w) + 1 ∧
  deletedIds (slice (addTask fields w)) = [].
Proof.
  intros Hnone.
  destruct (addTask_new_task fields w)
    as (newId & Htasks & [[Hin _]|(_ & -> & Hnext & Hdel)]).
  - rewrite Hnone in Hin. by apply not_elem_of_nil in Hin.
  - done.
Qed.

Lemma addTask_draws_nextId_witness :
  tasks (slice (addTask someFields initialWorld))
  = sampleTasks ++ [makeTask 8 someFields] ∧
  nextId (slice (addTask someFields initialWorld)) = 9.
Proof.
  destruct (addTask_draws_nextId someFields initialWorld eq_refl) as (H1 & H2 & _).
  split; [exact H1|exact H2].
Defined.

(** ** Reducers and selectors together *)

Lemma selectTaskById_None (i : Z) (s : TasksState) :
  selectTaskById i s = None ↔ i ∉ taskIds s.
Proof.
  unfold selectTaskById, taskIds.
  rewrite fmap_None, list_find_None, Forall_forall, list_elem_of_fmap.
  unfold hasId. split.
  - intros Hnone (t & -> & Ht). by apply (Hnone t).
  - intros Hout t Ht Hid. apply Hout. exists t. by rewrite Hid.
Qed.

Lemma filter_hasId_unique (ts : list Task) (t : Task) :
  NoDup (id <$> ts) → t ∈ ts → filter (hasId (id t)) ts = [t].
Proof.
  induction ts as [|u ts IH]; intros Hnodup Ht; [by apply not_elem_of_nil in Ht|].
  rewrite fmap_cons in Hnodup. apply NoDup_cons in Hnodup as [Hu Hnodup].
  rewrite filter_cons. apply elem_of_cons in Ht as [->|Ht].
  - rewrite decide_True by done. f_equal. apply filter_none.
    intros v Hv Hid. apply Hu. apply list_elem_of_fmap. exists v.
    by rewrite Hid.
  - rewrite decide_False; [by apply IH|].
    intros Hid. apply Hu. apply list_elem_of_fmap. exists t.
    by rewrite Hid.
Qed.

Lemma filter_all {A} (P : A → Prop) `{HPdec : !∀ x, Decision (P x)} (l : list A) :
  (∀ x, x ∈ l → P x) → filter P l = l.
Proof.
  induction l as [|x l IH]; intros Hall; [done|].
  rewrite filter_cons, decide_True by (apply Hall; left).
  f_equal. apply IH. intros y Hy. apply Hall. by right.
Qed.

(** X7: [addTask] raises [totalTasks] by one; it raises [completedTasks] by
    one when the payload's status is completed and [pendingTasks] by one
    when it is pending, leaving the other count alone. *)
Theorem addTask_statistics (fields : TaskFields) (w : World) :
  totalTasks (selectTaskStatistics (slice (addTask fields w)))
  = totalTasks (selectTaskStatistics (slice w)) + 1 ∧
  completedTasks (selectTaskStatistics (slice (addTask fields w)))
  = completedTasks (selectTaskStatistics (slice w))
    + (if decide (newStatus fields = completed) then 1 else 0) ∧
  pendingTasks (selectTaskStatistics (slice (addTask fields w)))
  = pendingTasks (selectTaskStatistics (slice w))
    + (if decide (newStatus fields = pending) then 1 else 0).
Proof.
  destruct (addTask_new_task fields w) as (newId & Htasks & _).
  unfold selectTaskStatistics. simpl. rewrite Htasks.
  rewrite filter_app, !length_app, filter_cons. simpl.
  destruct (newStatus fields); simpl; split_and!; lia.
Qed.

(** X8: adding a task and then deleting the id it was given restores the
    tasks collection, provided the bookkeeping of ids was intact. *)
Theorem addTask_then_deleteTask (fields : TaskFields) (w : World) :
  idsWellFormed (slice w) →
  ∃ newId,
    last (tasks (slice (addTask fields w))) = Some (makeTask newId fields) ∧
    tasks (slice (deleteTask newId (addTask fields w))) = tasks (slice w).
Proof.
  intros (_ & _ & Hapart & _ & Hlt).
  destruct (addTask_new_task fields w) as (newId & Htasks & Hfrom).
  exists newId. rewrite Htasks. split; [apply last_snoc|].
  assert (newId ∉ taskIds (slice w)) as Hfresh.
  { destruct Hfrom as [[Hin _]|(_ & -> & _)]; [by apply Hapart|].
    intros Hin. specialize (Hlt _ Hin). lia. }
  simpl. rewrite Htasks, filter_app, filter_cons. simpl.
  rewrite decide_False by tauto. rewrite filter_nil, app_nil_r.
  apply filter_all. intros t Ht Hid. apply Hfresh.
  apply list_elem_of_fmap. by exists t.
Qed.

Lemma addTask_then_deleteTask_witness :
  ∃ newId,
    last (tasks (slice (addTask someFields initialWorld)))
    = Some (makeTask newId someFields) ∧
    tasks (slice (deleteTask newId (addTask someFields initialWorld)))
    = sampleTasks.
Proof.
  exact (addTask_then_deleteTask someFields initialWorld idsWellFormed_sample).
Defined.

(** Without intact bookkeeping the round trip can fail: the reused id may
    belong to a live task, which the delete then removes as well. *)
Example addTask_then_deleteTask_needs_bookkeeping :
  let w := deleteTask 8 (addTask someFields initialWorld) in
  let w' := addTask someFields (dispatchAll [DeleteTask 9; AddTask someFields] w) in
  taskIds (slice w') = [1; 2; 3; 4; 5; 6; 7; 8; 9] ∧
  taskIds (slice (deleteTask 9 (addTask someFields w')))
  = [1; 2; 3; 4; 5; 6; 7; 8].
Proof. split; reflexivity. Qed.

(** X9: [deleteTask] shortens the collection by the number of tasks that
    carry the id: nothing is removed for an id no task has (the id is still
    recorded, and the state still saved when the storage accepts the
    writes), and exactly one task when ids are distinct and the id is
    present. *)
Theorem deleteTask_length (i : Z) (w : World) :
  (length (tasks (slice (deleteTask i w)))
   + length (filter (hasId i) (tasks (slice w))))%nat
  = length (tasks (slice w)) ∧
  (i ∉ taskIds (slice w) →
   tasks (slice (deleteTask i w)) = tasks (slice w) ∧
   deletedIds (slice (deleteTask i w)) = deletedIds (slice w) ++ [i] ∧
   (storageNeverThrows w →
    storageLog (deleteTask i w)
    = storageLog w ++ savedCalls (slice (deleteTask i w)))) ∧
  (NoDup (taskIds (slice w)) → i ∈ taskIds (slice w) →
   length (tasks (slice w)) = S (length (tasks (slice (deleteTask i w))))).
Proof.
  assert ((length (tasks (slice (deleteTask i w)))
           + length (filter (hasId i) (tasks (slice w))))%nat
          = length (tasks (slice w))) as Hlen.
  { simpl. induction (tasks (slice w)) as [|t ts IH]; [done|].
    rewrite !filter_cons.
    destruct (decide (id t ≠ i)), (decide (hasId i t)); simpl; try done.
    all: lia. }
  split; [done|]. split.
  - intros Hout. split_and!; [|done|].
    + simpl. apply filter_all. intros t Ht Hid. apply Hout.
      apply list_elem_of_fmap. by exists t.
    + intros Hok. unfold deleteTask. by rewrite saveToLocalStorage_log.
  - intros Hnodup (t & -> & Ht)%list_elem_of_fmap.
    rewrite (filter_hasId_unique _ t) in Hlen by done. simpl in *. lia.
Qed.

Lemma deleteTask_length_witness :
  tasks (slice (deleteTask 42 initialWorld)) = sampleTasks ∧
  length sampleTasks = S (length (tasks (slice (deleteTask 1 initialWorld)))).
Proof.
  destruct (deleteTask_length 42 initialWorld) as (_ & Habsent & _).
  destruct (deleteTask_length 1 initialWorld) as (_ & _ & Hpresent).
  split.
  - assert (42 ∉ taskIds (slice initialWorld)) as Hout
      by (apply selectTaskById_None; reflexivity).
    exact (proj1 (Habsent Hout)).
  - apply Hpresent.
    + exact (proj1 idsWellFormed_sample).
    + apply list_elem_of_In. vm_compute. tauto.
Defined.

(** X10: [selectTaskById] returns the first task of the collection that
    carries the id, and nothing exactly when no task does; in particular it
    finds nothing right after [deleteTask] of that id. *)
Theorem selectTaskById_first_match (i : Z) (w : World) :
  (selectTaskById i (slice w) = None ↔ i ∉ taskIds (slice w)) ∧
  (∀ t, selectTaskById i (slice w) = Some t ↔
        ∃ k, tasks (slice w) !! k = Some t ∧ id t = i ∧
             ∀ j u, tasks (slice w) !! j = Some u → (j < k)%nat → id u ≠ i) ∧
  selectTaskById i (slice (deleteTask i w)) = None.
Proof.
  split_and!.
  - apply selectTaskById_None.
  - intros t. split.
    + intros (k & Hk & Ht)%selectTaskById_Some. exists k.
      apply findIndex_Some in Hk as (u & Hu & Hid & Hfirst).
      by simplify_eq.
    + intros (k & Hk & Hid & Hfirst).
      apply (selectTaskById_lookup _ _ k); [|done].
      apply findIndex_Some. eauto.
  - apply selectTaskById_None. intros (t & -> & Ht)%list_elem_of_fmap.
    simpl in Ht. by apply list_elem_of_filter in Ht as [? _].
Qed.

Lemma updateTask_found (w : World) (p : TaskPatch) (k : nat) (t : Task) :
  findIndex (patchId p) (tasks (slice w)) = Some k →
  tasks (slice w) !! k = Some t →
  updateTask p w
  = saveToLocalStorage
      (setSlice {| tasks := <[k := mergeTask t p]> (tasks (slice w));
                   nextId := nextId (slice w);
                   deletedIds := deletedIds (slice w) |} w).
Proof. intros Hk Ht. unfold updateTask. by rewrite Hk, Ht. Qed.

(** X11: after [updateTask] on an id that is present, [selectTaskById]
    returns the task it returned before, merged with the payload; and, when
    the storage accepts the writes, the state is saved even when the
    payload changes nothing. *)
Theorem updateTask_then_select (p : TaskPatch) (w : World) (t : Task) :
  selectTaskById (patchId p) (slice w) = Some t →
  selectTaskById (patchId p) (slice (updateTask p w)) = Some (mergeTask t p) ∧
  (storageNeverThrows w →
   storageLog (updateTask p w)
   = storageLog w ++ savedCalls (slice (updateTask p w))) ∧
  (mergeTask t p = t → slice (updateTask p w) = slice w).
Proof.
  intros (k & Hk & Ht)%selectTaskById_Some.
  pose proof Hk as (u & Hu & Hid & _)%findIndex_Some.
  assert (u = t) as -> by congruence.
  rewrite (updateTask_found w p k t Hk Ht).
  split_and!.
  - apply (selectTaskById_lookup _ _ k); simpl.
    + by rewrite (findIndex_insert_same_id _ _ k t).
    + apply list_lookup_insert_eq. by eapply lookup_lt_Some.
  - intros Hok. by rewrite saveToLocalStorage_log.
  - intros ->. simpl. rewrite list_insert_id by done. apply TasksState_eta.
Qed.

Lemma updateTask_then_select_witness :
  let p := {| patchId := 2; patchTitle := None; patchStatus := Some pending;
              patchDeadline := None; patchCategory := None;
              patchPriority := None |} in
  status <$> selectTaskById 2 (slice (updateTask p initialWorld)) = Some pending ∧
  length (storageLog (updateTask p initialWorld)) = 2%nat.
Proof.
  intros p.
  assert (∃ t, selectTaskById (patchId p) (slice initialWorld) = Some t) as [t Ht]
    by (eexists; reflexivity).
  destruct (updateTask_then_select p initialWorld t Ht) as (H1 & H2 & _).
  split.
  - unfold p in *. simpl patchId in H1. rewrite H1. reflexivity.
  - rewrite H2 by (intros ? ? ?; reflexivity). reflexivity.
Defined.

Example updateTask_saves_without_change :
  let p := {| patchId := 2; patchTitle := None; patchStatus := None;
              patchDeadline := None; patchCategory := None;
              patchPriority := None |} in
  slice (updateTask p initialWorld) = slice initialWorld ∧
  storageLog (updateTask p initialWorld)
  = [SetItem "tasks" (JsonTasks sampleTasks); SetItem "nextId" (DecimalNumber 8)].
Proof. split; reflexivity. Qed.

(** X12: [toggleTaskStatus] on an id that is present flips the status of
    the first task with that id and changes nothing else: the other tasks,
    the other fields of that task, the order, [nextId] and [deletedIds] are
    as before. *)
Theorem toggleTaskStatus_frame (i : Z) (w : World) (t : Task) :
  selectTaskById i (slice w) = Some t →
  ∃ k,
    tasks (slice w) !! k = Some t ∧
    tasks (slice (toggleTaskStatus i w))
    = <[k := setStatus (toggle (status t)) t]> (tasks (slice w)) ∧
    (∀ j, j ≠ k →
          tasks (slice (toggleTaskStatus i w)) !! j = tasks (slice w) !! j) ∧
    taskIds (slice (toggleTaskStatus i w)) = taskIds (slice w) ∧
    title <$> tasks (slice (toggleTaskStatus i w)) = title <$> tasks (slice w) ∧
    deadline <$> tasks (slice (toggleTaskStatus i w))
    = deadline <$> tasks (slice w) ∧
    category <$> tasks (slice (toggleTaskStatus i w))
    = category <$> tasks (slice w) ∧
    priority <$> tasks (slice (toggleTaskStatus i w))
    = priority <$> tasks (slice w) ∧
    nextId (slice (toggleTaskStatus i w)) = nextId (slice w) ∧
    deletedIds (slice (toggleTaskStatus i w)) = deletedIds (slice w).
Proof.
  intros (k & Hk & Ht)%selectTaskById_Some. exists k.
  rewrite (toggleTaskStatus_found w i k t Hk Ht). simpl.
  assert (∀ {B} (f : Task → B),
            f (setStatus (toggle (status t)) t) = f t →
            f <$> <[k := setStatus (toggle (status t)) t]> (tasks (slice w))
            = f <$> tasks (slice w)) as Hfield.
  { intros B f Hf. rewrite list_fmap_insert, Hf.
    apply list_insert_id. by rewrite list_lookup_fmap, Ht. }
  split_and!; try done.
  - intros j Hj. by apply list_lookup_insert_ne.
  - by apply (Hfield _ id).
  - by apply (Hfield _ title).
  - by apply (Hfield _ deadline).
  - by apply (Hfield _ category).
  - by apply (Hfield _ priority).
Qed.

Lemma toggleTaskStatus_frame_witness :
  status <$> tasks (slice (toggleTaskStatus 4 initialWorld))
  = [pending; completed; pending; completed; pending; completed; pending] ∧
  title <$> tasks (slice (toggleTaskStatus 4 initialWorld)) = title <$> sampleTasks.
Proof.
  assert (∃ t, selectTaskById 4 (slice initialWorld) = Some t) as [t Ht]
    by (eexists; reflexivity).
  destruct (toggleTaskStatus_frame 4 initialWorld t Ht)
    as (k & _ & _ & _ & _ & Htitle & _).
  split; [reflexivity|exact Htitle].
Defined.

(** ** More about sorting *)

Section SortCompose.
Context {A : Type} (cmp : A → A → Z).
Hypothesis cmp_total : ∀ x y, 0 < cmp x y → cmp y x ≤ 0.
Hypothesis cmp_trans : ∀ x y z, cmp x y ≤ 0 → cmp y z ≤ 0 → cmp x z ≤ 0.

Lemma sortInsert_before_all (x : A) (l : list A) :
  (∀ y, y ∈ l → cmp x y ≤ 0) → sortInsert cmp x l = x :: l.
Proof.
  intros Hall. destruct l as [|y l]; [done|]. simpl.
  destruct (Z.leb_spec (cmp x y) 0) as [_|Hgt]; [done|].
  specialize (Hall y ltac:(left)). lia.
Qed.

(** Sorting a sorted list changes nothing. *)
Lemma arraySort_of_sorted (l : list A) :
  StronglySorted (λ a b, cmp a b ≤ 0) l → arraySort cmp l = l.
Proof.
  induction 1 as [|x l Hl IH Hx]; [done|].
  cbn [arraySort foldr]. fold (arraySort cmp l). rewrite IH.
  apply sortInsert_before_all. by apply Forall_forall.
Qed.

Lemma sortInsert_filter_sorted (P : A → Prop) `{HPdec : !∀ x, Decision (P x)}
    (x : A) (l : list A) :
  StronglySorted (λ a b, cmp a b ≤ 0) l → P x →
  filter P (sortInsert cmp x l) = sortInsert cmp x (filter P l).
Proof.
  intros Hsorted HP. induction Hsorted as [|y l Hl IH Hy]; simpl.
  - by rewrite filter_cons, decide_True.
  - destruct (Z.leb_spec (cmp x y) 0) as [Hxy|Hxy].
    + rewrite (filter_cons _ x), decide_True by done.
      symmetry. apply sortInsert_before_all.
      intros z [_ Hz]%list_elem_of_filter.
      apply elem_of_cons in Hz as [->|Hz]; [done|].
      eapply cmp_trans; [exact Hxy|]. by eapply Forall_forall in Hy.
    + rewrite !(filter_cons _ y). destruct (decide (P y)); [|done].
      simpl. destruct (Z.leb_spec (cmp x y) 0); [lia|]. by rewrite IH.
Qed.

(** Filtering the sorted list is sorting the filtered list. *)
Lemma arraySort_filter (P : A → Prop) `{HPdec : !∀ x, Decision (P x)}
    (l : list A) :
  filter P (arraySort cmp l) = arraySort cmp (filter P l).
Proof.
  induction l as [|x l IH]; [done|].
  cbn [arraySort foldr]. fold (arraySort cmp l).
  rewrite filter_cons. destruct (decide (P x)) as [HP|HP].
  - rewrite sortInsert_filter_sorted; [|by apply arraySort_sorted|done].
    by rewrite IH.
  - by rewrite sortInsert_filter_out.
Qed.
End SortCompose.

(** A comparator that subtracts numeric keys. *)
Section KeySort.
Context {A : Type} (key : A → Z).

Lemma keySort_sorted (l : list A) :
  StronglySorted (λ a b, key a ≤ key b) (arraySort (λ a b, key a - key b) l).
Proof.
  eapply StronglySorted_mono; [|apply arraySort_sorted]; simpl; intros; lia.
Qed.

Lemma keySort_stable (v : Z) (l : list A) :
  filter (λ a, key a = v) (arraySort (λ a b, key a - key b) l)
  = filter (λ a, key a = v) l.
Proof. apply arraySort_stable. intros a b _ _ Ha Hpos Hb. lia. Qed.
End KeySort.

Lemma fieldComparator_total_any (getTime : string → Z) (field : TaskField)
    (direction : Direction) (a b : Task) :
  0 < fieldComparator getTime field direction a b →
  fieldComparator getTime field direction b a ≤ 0.
Proof.
  destruct field; try (by apply fieldComparator_total);
    simpl; destruct direction; lia.
Qed.

Lemma fieldComparator_trans_any (getTime : string → Z) (field : TaskField)
    (direction : Direction) (a b c : Task) :
  fieldComparator getTime field direction a b ≤ 0 →
  fieldComparator getTime field direction b c ≤ 0 →
  fieldComparator getTime field direction a c ≤ 0.
Proof.
  destruct field; try (by apply fieldComparator_trans);
    simpl; destruct direction; lia.
Qed.

(** ** Selectors and statistics *)

Lemma filter_complement_perm {A} (P : A → Prop) `{HPdec : !∀ x, Decision (P x)}
    (Q : A → Prop) `{HQdec : !∀ x, Decision (Q x)} (l : list A) :
  (∀ x, Q x ↔ ¬ P x) → filter P l ++ filter Q l ≡ₚ l.
Proof.
  intros HQ. induction l as [|x l IH]; [done|].
  rewrite !filter_cons. destruct (decide (P x)) as [HP|HP].
  - rewrite decide_False by (rewrite HQ; tauto). simpl. by rewrite IH.
  - rewrite decide_True by (by rewrite HQ).
    rewrite <- Permutation_middle. by rewrite IH.
Qed.

(** X13: the status selectors and the statistics agree.  Every task is
    returned by exactly one of [selectTasksByStatus('pending')] and
    [selectTasksByStatus('completed')], and [pendingTasks] and
    [completedTasks] are the lengths of what they return. *)
Theorem status_selectors_match_statistics (s : TasksState) :
  selectTasksByStatus pending s ++ selectTasksByStatus completed s ≡ₚ tasks s ∧
  pendingTasks (selectTaskStatistics s)
  = Z.of_nat (length (selectTasksByStatus pending s)) ∧
  completedTasks (selectTaskStatistics s)
  = Z.of_nat (length (selectTasksByStatus completed s)) ∧
  (∀ t, t ∈ selectTasksByStatus pending s → t ∉ selectTasksByStatus completed s).
Proof.
  assert (selectTasksByStatus pending s ++ selectTasksByStatus completed s
          ≡ₚ tasks s) as Hperm.
  { unfold selectTasksByStatus. apply filter_complement_perm.
    intros t. destruct (status t); split; (done || congruence). }
  split; [done|]. split_and!.
  - unfold selectTaskStatistics. simpl.
    rewrite <- Hperm at 1. rewrite length_app.
    unfold selectTasksByStatus. lia.
  - done.
  - unfold selectTasksByStatus.
    intros t [Hp _]%list_elem_of_filter [Hc _]%list_elem_of_filter. congruence.
Qed.

(** Tallying a list under a key: a key counted [n > 0] times holds [n] more
    than before, a key never counted is left as it was. *)
Lemma tally_lookup {A} (keyOf : A → string) (l : list A) (acc : gmap string Z)
    (key : string) :
  foldl (λ acc x, countUp acc (keyOf x)) acc l !! key
  = match filter (λ x, keyOf x = key) l with
    | [] => acc !! key
    | matching => Some (default 0 (acc !! key) + Z.of_nat (length matching))
    end.
Proof.
  revert acc. induction l as [|x l IH]; intros acc; [done|].
  simpl. rewrite IH, filter_cons. unfold countUp.
  destruct (decide (keyOf x = key)) as [<-|Hne].
  - rewrite lookup_insert_eq. simpl.
    destruct (filter _ l); simpl; f_equal; lia.
  - by rewrite lookup_insert_ne.
Qed.

Lemma categoryName_inj (c1 c2 : TaskCategory) :
  categoryName c1 = categoryName c2 → c1 = c2.
Proof. by destruct c1, c2. Qed.

Lemma priorityName_inj (p1 p2 : TaskPriority) :
  priorityName p1 = priorityName p2 → p1 = p2.
Proof. by destruct p1, p2. Qed.

(** X14: [categoryCounts] holds, under each category's name, the number of
    tasks [selectTasksByCategory] returns for it, and has no entry for a
    category without tasks nor for any other key; [priorityCounts] relates
    to [selectTasksByPriority] in the same way. *)
Theorem counts_match_selectors (s : TasksState) :
  (∀ c, categoryCounts (selectTaskStatistics s) !! categoryName c
        = match selectTasksByCategory c s with
          | [] => None
          | found => Some (Z.of_nat (length found))
          end) ∧
  (∀ key, (∀ c, key ≠ categoryName c) →
          categoryCounts (selectTaskStatistics s) !! key = None) ∧
  (∀ p, priorityCounts (selectTaskStatistics s) !! priorityName p
        = match selectTasksByPriority p s with
          | [] => None
          | found => Some (Z.of_nat (length found))
          end) ∧
  (∀ key, (∀ p, key ≠ priorityName p) →
          priorityCounts (selectTaskStatistics s) !! key = None).
Proof.
  unfold selectTaskStatistics, selectTasksByCategory, selectTasksByPriority.
  simpl. split_and!.
  - intros c. rewrite (tally_lookup (λ t, categoryName (category t))).
    rewrite (list_filter_iff _ (λ t, category t = c)).
    + by destruct (filter _ _).
    + intros t. split; [apply categoryName_inj|by intros ->].
  - intros key Hkey. rewrite (tally_lookup (λ t, categoryName (category t))).
    rewrite filter_none; [done|]. intros t _ Heq. by apply (Hkey (category t)).
  - intros p. rewrite (tally_lookup (λ t, priorityName (priority t))).
    rewrite (list_filter_iff _ (λ t, priority t = p)).
    + by destruct (filter _ _).
    + intros t. split; [apply priorityName_inj|by intros ->].
  - intros key Hkey. rewrite (tally_lookup (λ t, priorityName (priority t))).
    rewrite filter_none; [done|]. intros t _ Heq. by apply (Hkey (priority t)).
Qed.

Lemma counts_match_selectors_witness :
  categoryCounts (selectTaskStatistics (slice initialWorld)) !! "Work" = None.
Proof.
  apply (proj1 (proj2 (counts_match_selectors (slice initialWorld)))).
  intros c. destruct c; discriminate.
Defined.

Lemma keySort_lowest_first {A} (key : A → Z) (lowest : Z) (l : list A) :
  (∀ x, x ∈ l → lowest ≤ key x) →
  arraySort (λ a b, key a - key b) l
  = filter (λ x, key x = lowest) l
    ++ arraySort (λ a b, key a - key b) (filter (λ x, ¬ key x = lowest) l).
Proof.
  intros Hlow. rewrite (arraySort_partition _ (λ x, key x = lowest)).
  - f_equal. apply arraySort_in_order.
    intros a b [Ha _]%list_elem_of_filter [Hb _]%list_elem_of_filter. lia.
  - intros a b _ Hb Ha Hne. specialize (Hlow b Hb). lia.
Qed.

(** Three keys, in rising order of rank, sort into three groups. *)
Lemma keySort_three_groups (rank : TaskPriority → Z) (first second third : TaskPriority)
    (ts : list Task) :
  rank first < rank second → rank second < rank third →
  (∀ p, p = first ∨ p = second ∨ p = third) →
  arraySort (λ a b, rank (priority a) - rank (priority b)) ts
  = filter (λ t, priority t = first) ts
    ++ filter (λ t, priority t = second) ts
    ++ filter (λ t, priority t = third) ts.
Proof.
  intros H12 H23 Hall.
  assert (∀ p q, rank p = rank q ↔ p = q) as Hrank.
  { intros p q. split; [|by intros ->].
    destruct (Hall p) as [->|[->| ->]], (Hall q) as [->|[->| ->]]; done || lia. }
  rewrite (keySort_lowest_first (λ t, rank (priority t)) (rank first)).
  2:{ intros t _. destruct (Hall (priority t)) as [->|[->| ->]]; lia. }
  f_equal; [apply list_filter_iff; intros t; apply Hrank|].
  rewrite (keySort_lowest_first (λ t, rank (priority t)) (rank second)).
  2:{ intros t [Ht _]%list_elem_of_filter. rewrite Hrank in Ht.
      destruct (Hall (priority t)) as [?|[->| ->]]; done || lia. }
  rewrite !list_filter_filter. f_equal.
  - apply list_filter_iff. intros t. rewrite !Hrank. split.
    + by intros [? _].
    + intros ->. split; [done|]. intros Heq. rewrite Heq in H12. lia.
  - rewrite arraySort_in_order.
    + apply list_filter_iff. intros t. rewrite !Hrank. split.
      * intros [? ?]. by destruct (Hall (priority t)) as [?|[?|?]].
      * intros ->. split; intros Heq; rewrite Heq in *; lia.
    + intros a b [[Ha2 Ha1] _]%list_elem_of_filter
                 [[Hb2 Hb1] _]%list_elem_of_filter.
      rewrite !Hrank in *.
      destruct (Hall (priority a)) as [?|[?| ->]]; try done.
      destruct (Hall (priority b)) as [?|[?| ->]]; try done. lia.
Qed.

(** X15: [selectTasksSortedByPriority] lists the high-priority tasks, then
    the medium ones, then the low ones, each group in collection order;
    [selectTasksSortedByField('priority')] does the same ascending and
    lists low, medium, high descending. *)
Theorem sorted_by_priority_groups (getTime : string → Z) (s : TasksState) :
  selectTasksSortedByPriority s
  = selectTasksByPriority high s ++ selectTasksByPriority medium s
    ++ selectTasksByPriority low s ∧
  selectTasksSortedByField getTime FieldPriority asc s
  = selectTasksSortedByPriority s ∧
  selectTasksSortedByField getTime FieldPriority desc s
  = selectTasksByPriority low s ++ selectTasksByPriority medium s
    ++ selectTasksByPriority high s.
Proof.
  unfold selectTasksSortedByPriority, selectTasksSortedByField,
    selectTasksByPriority.
  split_and!; [|done|].
  - apply (keySort_three_groups priorityValue high medium low); try done.
    intros p. destruct p; auto.
  - rewrite <- (keySort_three_groups (λ p, - priorityValue p) low medium high);
      try done.
    + apply arraySort_ext. intros a b _ _. simpl. lia.
    + intros p. destruct p; auto.
Qed.

Example sorted_by_priority_sample :
  id <$> selectTasksSortedByPriority (slice initialWorld) = [1; 5; 6; 2; 4; 7; 3] ∧
  id <$> selectTasksSortedByField (λ _, 0) FieldPriority desc (slice initialWorld)
  = [3; 2; 4; 7; 1; 5; 6].
Proof. split; reflexivity. Qed.

(** X16: [selectTasksSortedByDeadline] rearranges the collection by rising
    deadline time, tasks with the same time keeping their order;
    [selectTasksSortedByField('deadline')] is the same ascending, and by
    falling deadline time descending. *)
Theorem sorted_by_deadline (getTime : string → Z) (s : TasksState) :
  selectTasksSortedByDeadline getTime s ≡ₚ tasks s ∧
  StronglySorted (λ a b, getTime (deadline a) ≤ getTime (deadline b))
                 (selectTasksSortedByDeadline getTime s) ∧
  (∀ time, filter (λ t, getTime (deadline t) = time)
                  (selectTasksSortedByDeadline getTime s)
           = filter (λ t, getTime (deadline t) = time) (tasks s)) ∧
  selectTasksSortedByField getTime FieldDeadline asc s
  = selectTasksSortedByDeadline getTime s ∧
  selectTasksSortedByField getTime FieldDeadline desc s ≡ₚ tasks s ∧
  StronglySorted (λ a b, getTime (deadline b) ≤ getTime (deadline a))
                 (selectTasksSortedByField getTime FieldDeadline desc s) ∧
  (∀ time, filter (λ t, getTime (deadline t) = time)
                  (selectTasksSortedByField getTime FieldDeadline desc s)
           = filter (λ t, getTime (deadline t) = time) (tasks s)).
Proof.
  unfold selectTasksSortedByDeadline, selectTasksSortedByField.
  split_and!.
  - apply arraySort_perm.
  - apply (keySort_sorted (λ t, getTime (deadline t))).
  - intros time. apply (keySort_stable (λ t, getTime (deadline t))).
  - done.
  - apply arraySort_perm.
  - eapply StronglySorted_mono; [|apply arraySort_sorted]; simpl; intros; lia.
  - intros time. apply arraySort_stable. simpl. intros a b _ _ Ha Hpos Hb. lia.
Qed.

(** With days since 2025-01-01 standing in for the parsed dates of the
    sample data. *)
Example sorted_by_deadline_sample :
  let days (d : string) : Z :=
    if bool_decide (d = "2025-04-01") then 90
    else if bool_decide (d = "2025-04-05") then 94
    else if bool_decide (d = "2025-04-10") then 99
    else if bool_decide (d = "2025-04-15") then 104
    else if bool_decide (d = "2025-04-20") then 109
    else if bool_decide (d = "2025-05-10") then 129
    else 151 in
  id <$> selectTasksSortedByDeadline days (slice initialWorld)
  = [4; 5; 6; 3; 7; 1; 2].
Proof. reflexivity. Qed.

(** X17: sorting and filtering commute.  Keeping the tasks with some
    property out of the sorted collection gives the same list as sorting the
    collection of the tasks with that property, for every field and both
    directions; so a view that filters first and sorts afterwards shows the
    filtered rows of the sorted collection. *)
Theorem sort_commutes_with_filter (getTime : string → Z) (field : TaskField)
    (direction : Direction) (s : TasksState)
    (P : Task → Prop) `{HPdec : !∀ t, Decision (P t)} :
  filter P (selectTasksSortedByField getTime field direction s)
  = selectTasksSortedByField getTime field direction
      {| tasks := filter P (tasks s); nextId := nextId s;
         deletedIds := deletedIds s |} ∧
  selectTasksByStatus completed
    {| tasks := selectTasksSortedByField getTime field direction s;
       nextId := nextId s; deletedIds := deletedIds s |}
  = selectTasksSortedByField getTime field direction
      {| tasks := selectTasksByStatus completed s; nextId := nextId s;
         deletedIds := deletedIds s |}.
Proof.
  unfold selectTasksSortedByField, selectTasksByStatus. simpl.
  split; apply arraySort_filter;
    (apply fieldComparator_total_any || apply fieldComparator_trans_any).
Qed.

(** X18: sorting is idempotent: [selectTasksSortedByField] applied to a
    collection it has sorted, with the same field and direction, returns
    that collection. *)
Theorem sort_is_idempotent (getTime : string → Z) (field : TaskField)
    (direction : Direction) (s : TasksState) :
  selectTasksSortedByField getTime field direction
    {| tasks := selectTasksSortedByField getTime field direction s;
       nextId := nextId s; deletedIds := deletedIds s |}
  = selectTasksSortedByField getTime field direction s.
Proof.
  unfold selectTasksSortedByField. simpl.
  apply arraySort_of_sorted, arraySort_sorted;
    (apply fieldComparator_total_any || apply fieldComparator_trans_any).
Qed.

(** ** More about searching *)

Lemma lowerUnit_idemp (c : ascii) : lowerUnit (lowerUnit c) = lowerUnit c.
Proof. by destruct c as [[] [] [] [] [] [] [] []]. Qed.

Lemma isWhiteSpace_lowerUnit (c : ascii) :
  isWhiteSpace (lowerUnit c) = isWhiteSpace c.
Proof. by destruct c as [[] [] [] [] [] [] [] []]. Qed.

Lemma toLowerCase_idemp (s : string) : toLowerCase (toLowerCase s) = toLowerCase s.
Proof.
  induction s as [|c s IH]; simpl; [done|]. by rewrite lowerUnit_idemp, IH.
Qed.

Lemma allWhiteSpace_toLowerCase (s : string) :
  allWhiteSpace (toLowerCase s) = allWhiteSpace s.
Proof.
  induction s as [|c s IH]; simpl; [done|].
  by rewrite isWhiteSpace_lowerUnit, IH.
Qed.

Lemma append_assoc (s t u : string) : (s +:+ t) +:+ u = s +:+ t +:+ u.
Proof.
  induction s as [|c s IH]; [done|]. by rewrite !append_cons, IH.
Qed.

Lemma occursIn_trans (s t u : string) : occursIn s t → occursIn t u → occursIn s u.
Proof.
  intros (b1 & a1 & ->) (b2 & a2 & ->).
  exists (b2 +:+ b1), (a1 +:+ a2). by rewrite !append_assoc.
Qed.

Lemma selectTasksBySearchTerm_elem (term : string) (s : TasksState) (t : Task) :
  allWhiteSpace term = false →
  t ∈ selectTasksBySearchTerm term s ↔
  t ∈ tasks s ∧ occursIn (toLowerCase term) (toLowerCase (title t)).
Proof.
  intros Hterm. unfold selectTasksBySearchTerm.
  rewrite bool_decide_eq_false_2 by (rewrite trim_empty_iff; congruence).
  by rewrite list_elem_of_filter, includes_spec, (comm and).
Qed.

Lemma search_blank_term (s : TasksState) (term : string) :
  (allWhiteSpace term = true → selectTasksBySearchTerm term s = tasks s) ∧
  (allWhiteSpace term = false →
   selectTasksBySearchTerm term s
   = filter (λ t, includes (toLowerCase (title t)) (toLowerCase term) = true)
            (tasks s)).
Proof.
  unfold selectTasksBySearchTerm. split; intros Hterm.
  - by rewrite bool_decide_eq_true_2 by (by apply trim_empty_iff).
  - by rewrite bool_decide_eq_false_2 by (rewrite trim_empty_iff; congruence).
Qed.

(** X19: a term that contains another finds no more than it.  When the
    lower-casing of [term] occurs in the lower-casing of a non-blank term
    [longer], every task found for [longer] is found for [term]. *)
Theorem longer_term_narrows_search (s : TasksState) (term longer : string) :
  allWhiteSpace longer = false →
  occursIn (toLowerCase term) (toLowerCase longer) →
  ∀ t, t ∈ selectTasksBySearchTerm longer s →
       t ∈ selectTasksBySearchTerm term s.
Proof.
  intros Hlonger Hocc t.
  rewrite (selectTasksBySearchTerm_elem longer) by done.
  intros [Ht Hfound].
  destruct (allWhiteSpace term) eqn:Hterm.
  - pose proof (proj1 (search_blank_term s term) Hterm) as ->. done.
  - apply selectTasksBySearchTerm_elem; [done|]. split; [done|].
    by eapply occursIn_trans.
Qed.

Lemma longer_term_narrows_search_witness :
  {| id := 2; title := "Write unit tests"; status := completed;
     deadline := "2025-06-01"; category := work; priority := medium |}
  ∈ selectTasksBySearchTerm "it" (slice initialWorld).
Proof.
  apply (longer_term_narrows_search (slice initialWorld) "it" "Write unit"
           eq_refl).
  - exists "write un", "". reflexivity.
  - apply list_elem_of_In. vm_compute. left. reflexivity.
Defined.

Example search_for_it :
  id <$> selectTasksBySearchTerm "it" (slice initialWorld) = [2; 7] ∧
  id <$> selectTasksBySearchTerm "Write unit" (slice initialWorld) = [2].
Proof. split; reflexivity. Qed.

(** X20: the search ignores the case of the term: two terms with the same
    lower-casing find the same tasks, and so does a term and its
    lower-casing. *)
Theorem search_ignores_term_case (s : TasksState) (term1 term2 : string) :
  toLowerCase term1 = toLowerCase term2 →
  selectTasksBySearchTerm term1 s = selectTasksBySearchTerm term2 s ∧
  selectTasksBySearchTerm (toLowerCase term1) s = selectTasksBySearchTerm term1 s.
Proof.
  assert (∀ a b, toLowerCase a = toLowerCase b →
                 selectTasksBySearchTerm a s = selectTasksBySearchTerm b s) as Hsame.
  { intros a b Hab. unfold selectTasksBySearchTerm.
    assert (allWhiteSpace a = allWhiteSpace b) as Hblank
      by (by rewrite <- (allWhiteSpace_toLowerCase a), Hab,
                     allWhiteSpace_toLowerCase).
    destruct (allWhiteSpace b) eqn:Hb.
    - rewrite !bool_decide_eq_true_2 by (by apply trim_empty_iff). done.
    - rewrite !bool_decide_eq_false_2
        by (rewrite trim_empty_iff; congruence).
      by rewrite Hab. }
  intros Hcase. split; [by apply Hsame|].
  apply Hsame, toLowerCase_idemp.
Qed.

Lemma search_ignores_term_case_witness :
  selectTasksBySearchTerm "BUY" (slice initialWorld)
  = selectTasksBySearchTerm "bUy" (slice initialWorld).
Proof.
  exact (proj1 (search_ignores_term_case (slice initialWorld) "BUY" "bUy" eq_refl)).
Defined.

(** ** Reordering by drag and drop *)

(** What [updateTaskOrder] leaves in [tasks], for a payload of a length a
    JavaScript array can have. *)
Lemma updateTaskOrder_tasks (ids : list Z) (w : World) :
  Z.of_nat (length ids) ≤ MAX_SAFE_INTEGER →
  tasks (slice (updateTaskOrder ids w))
  = listedTasks ids (tasks (slice w)) ++ unlistedTasks ids (tasks (slice w)).
Proof.
  intros Hlen. simpl. rewrite (arraySort_partition _ (λ t, id t ∈ ids)).
  - rewrite sort_listed. f_equal. apply arraySort_in_order.
    intros a b [Ha _]%list_elem_of_filter [Hb _]%list_elem_of_filter.
    rewrite !orderOf_unlisted by done. lia.
  - intros a b _ _ (k & _ & -> & Hk)%orderOf_listed Hb.
    rewrite orderOf_unlisted by done. lia.
Qed.

Lemma concat_singletons {A} (l : list A) : concat ((λ x, [x]) <$> l) = l.
Proof.
  induction l as [|x l IH]; [done|].
  rewrite fmap_cons, concat_cons. simpl. by f_equal.
Qed.

Lemma listedTasks_of_distinct (order ts : list Task) :
  NoDup (id <$> ts) → NoDup (id <$> order) → (∀ t, t ∈ order → t ∈ ts) →
  listedTasks (id <$> order) ts = order.
Proof.
  intros Hts Horder Hsub. unfold listedTasks.
  rewrite keepLast_NoDup by done.
  rewrite <- list_fmap_compose.
  rewrite <- (concat_singletons order) at 2. f_equal.
  apply list_fmap_ext. intros k t Ht. simpl.
  apply filter_hasId_unique; [done|].
  apply Hsub. by eapply list_elem_of_lookup_2.
Qed.

(** X21: a payload that lists the ids of some tasks of the collection, each
    once, puts exactly those tasks first, in payload order, and the other
    tasks after them in their previous order (ids being distinct).  When it
    lists every task, the collection afterwards is in exactly the payload's
    order. *)
Theorem updateTaskOrder_sets_order (order : list Task) (w : World) :
  Z.of_nat (length (tasks (slice w))) ≤ MAX_SAFE_INTEGER →
  NoDup (taskIds (slice w)) →
  NoDup (id <$> order) →
  (∀ t, t ∈ order → t ∈ tasks (slice w)) →
  tasks (slice (updateTaskOrder (id <$> order) w))
  = order ++ filter (λ t, id t ∉ id <$> order) (tasks (slice w)) ∧
  (order ≡ₚ tasks (slice w) →
   tasks (slice (updateTaskOrder (id <$> order) w)) = order ∧
   taskIds (slice (updateTaskOrder (id <$> order) w)) = id <$> order).
Proof.
  intros Hlen Hts Horder Hsub.
  assert (length order ≤ length (tasks (slice w)))%nat as Hshort.
  { rewrite <- (length_fmap id order), <- (length_fmap id (tasks (slice w))).
    apply submseteq_length, NoDup_submseteq; [done|].
    intros i (t & -> & Ht)%list_elem_of_fmap.
    apply list_elem_of_fmap. exists t. split; [done|]. by apply Hsub. }
  assert (tasks (slice (updateTaskOrder (id <$> order) w))
          = order ++ filter (λ t, id t ∉ id <$> order) (tasks (slice w))) as Htasks.
  { rewrite updateTaskOrder_tasks by (rewrite length_fmap; lia).
    by rewrite listedTasks_of_distinct. }
  split; [done|]. intros Hperm.
  assert (filter (λ t, id t ∉ id <$> order) (tasks (slice w)) = []) as Hnone.
  { apply filter_none. intros t Ht Hout. apply Hout.
    apply list_elem_of_fmap. exists t. split; [done|]. by rewrite Hperm. }
  unfold taskIds. rewrite Htasks, Hnone, app_nil_r. done.
Qed.

Lemma updateTaskOrder_sets_order_witness :
  taskIds (slice (updateTaskOrder (id <$> reverse sampleTasks) initialWorld))
  = [7; 6; 5; 4; 3; 2; 1].
Proof.
  assert (Z.of_nat (length (tasks (slice initialWorld))) ≤ MAX_SAFE_INTEGER)
    as Hlen by (vm_compute; discriminate).
  assert (NoDup (taskIds (slice initialWorld))) as Hts
    by exact (proj1 idsWellFormed_sample).
  assert (NoDup (id <$> reverse sampleTasks)) as Horder
    by (apply (bool_decide_unpack _); by vm_compute).
  assert (∀ t, t ∈ reverse sampleTasks → t ∈ tasks (slice initialWorld)) as Hsub
    by (intros t Ht; by apply elem_of_reverse in Ht).
  destruct (updateTaskOrder_sets_order (reverse sampleTasks) initialWorld
              Hlen Hts Horder Hsub) as [_ Hall].
  destruct (Hall (reverse_Permutation _)) as [_ Hids].
  rewrite Hids. reflexivity.
Defined.

(** ** The rows of the task list *)

Lemma filteredByStatus_elem (c : ListControls) (s : TasksState) (t : Task) :
  t ∈ filteredByStatus c s ↔
  t ∈ tasks s ∧ ∀ st, statusFilter c = Some st → status t = st.
Proof.
  unfold filteredByStatus, selectTasksByStatus, selectAllTasks.
  destruct (statusFilter c) as [[]|]; rewrite ?list_elem_of_filter.
  - split; [intros [? ?]; split; [done|]; by intros ? [= <-]|].
    intros [? H]. split; [by apply H|done].
  - split; [intros [? ?]; split; [done|]; by intros ? [= <-]|].
    intros [? H]. split; [by apply H|done].
  - split; [intros ?; split; [done|]; by intros ? [=]|by intros [? _]].
Qed.

Lemma filteredByCategory_elem (c : ListControls) (s : TasksState) (t : Task) :
  t ∈ filteredByCategory c s ↔
  t ∈ filteredByStatus c s ∧ ∀ cat, categoryFilter c = Some cat → category t = cat.
Proof.
  unfold filteredByCategory.
  destruct (categoryFilter c) as [wanted|]; rewrite ?list_elem_of_filter.
  - split; [intros [? ?]; split; [done|]; by intros ? [= <-]|].
    intros [? H]. split; [by apply H|done].
  - split; [intros ?; split; [done|]; by intros ? [=]|by intros [? _]].
Qed.

Lemma filteredByPriority_elem (c : ListControls) (s : TasksState) (t : Task) :
  t ∈ filteredByPriority c s ↔
  t ∈ filteredByCategory c s ∧ ∀ pr, priorityFilter c = Some pr → priority t = pr.
Proof.
  unfold filteredByPriority.
  destruct (priorityFilter c) as [wanted|]; rewrite ?list_elem_of_filter.
  - split; [intros [? ?]; split; [done|]; by intros ? [= <-]|].
    intros [? H]. split; [by apply H|done].
  - split; [intros ?; split; [done|]; by intros ? [=]|by intros [? _]].
Qed.

Lemma filteredTasks_elem (c : ListControls) (s : TasksState) (t : Task) :
  t ∈ filteredTasks c s ↔ t ∈ tasks s ∧ passesFilters c t.
Proof.
  unfold filteredTasks, passesFilters.
  destruct (allWhiteSpace (searchTerm c)) eqn:Hblank.
  - rewrite bool_decide_eq_true_2 by (by apply trim_empty_iff).
    rewrite filteredByPriority_elem, filteredByCategory_elem,
      filteredByStatus_elem.
    split; [intros [[[? ?] ?] ?]|intros [? (? & ? & ? & _)]]; by split_and!.
  - rewrite bool_decide_eq_false_2 by (rewrite trim_empty_iff; congruence).
    rewrite list_elem_of_filter, includes_spec.
    rewrite filteredByPriority_elem, filteredByCategory_elem,
      filteredByStatus_elem.
    split.
    + intros [? [[[? ?] ?] ?]]. by split_and!.
    + intros [? (? & ? & ? & Hocc)]. split_and!; try done. by apply Hocc.
Qed.

Lemma filteredTasks_sublist (c : ListControls) (s : TasksState) :
  filteredTasks c s `sublist_of` tasks s.
Proof.
  assert (filteredByStatus c s `sublist_of` tasks s) as H1.
  { unfold filteredByStatus, selectTasksByStatus, selectAllTasks.
    destruct (statusFilter c) as [[]|]; try apply sublist_filter. done. }
  assert (filteredByCategory c s `sublist_of` tasks s) as H2.
  { unfold filteredByCategory. destruct (categoryFilter c); [|done].
    etrans; [apply sublist_filter|done]. }
  assert (filteredByPriority c s `sublist_of` tasks s) as H3.
  { unfold filteredByPriority. destruct (priorityFilter c); [|done].
    etrans; [apply sublist_filter|done]. }
  unfold filteredTasks. case_bool_decide; [done|].
  etrans; [apply sublist_filter|done].
Qed.

Lemma visibleTasks_perm (getTime : string → Z) (c : ListControls) (s : TasksState) :
  visibleTasks getTime c s ≡ₚ filteredTasks c s.
Proof.
  unfold visibleTasks. destruct (sortField c); [apply arraySort_perm|done].
Qed.

Lemma visibleTasks_NoDup (getTime : string → Z) (c : ListControls) (s : TasksState) :
  NoDup (taskIds s) → NoDup (id <$> visibleTasks getTime c s).
Proof.
  intros Hnodup. rewrite visibleTasks_perm.
  eapply sublist_NoDup; [exact Hnodup|].
  unfold taskIds. apply fmap_sublist, filteredTasks_sublist.
Qed.

(** X22: the rows of the task list.  A task is shown exactly when it is in
    the collection and passes the status, category and priority filters
    and the search; without a sort field the rows keep the collection's
    order, with one they are the filtered tasks sorted by
    [selectTasksSortedByField]'s comparator; with no filter, no search and
    no sort the rows are the collection itself. *)
Theorem visibleTasks_rows (getTime : string → Z) (c : ListControls)
    (s : TasksState) :
  (∀ t, t ∈ visibleTasks getTime c s ↔ t ∈ tasks s ∧ passesFilters c t) ∧
  (length (visibleTasks getTime c s) ≤ length (tasks s))%nat ∧
  (sortField c = None → visibleTasks getTime c s `sublist_of` tasks s) ∧
  (∀ field, sortField c = Some field →
     visibleTasks getTime c s
     = selectTasksSortedByField getTime field (sortDirection c)
         {| tasks := filteredTasks c s; nextId := nextId s;
            deletedIds := deletedIds s |} ∧
     StronglySorted
       (λ a b, fieldComparator getTime field (sortDirection c) a b ≤ 0)
       (visibleTasks getTime c s)) ∧
  visibleTasks getTime noControls s = tasks s.
Proof.
  split_and!.
  - intros t. by rewrite visibleTasks_perm, filteredTasks_elem.
  - rewrite visibleTasks_perm. apply sublist_length, filteredTasks_sublist.
  - intros Hnone. unfold visibleTasks. rewrite Hnone.
    apply filteredTasks_sublist.
  - intros field Hfield. unfold visibleTasks. rewrite Hfield. split; [done|].
    apply arraySort_sorted;
      (apply fieldComparator_total_any || apply fieldComparator_trans_any).
  - done.
Qed.

Lemma visibleTasks_rows_witness :
  let c := {| statusFilter := Some pending; categoryFilter := None;
              priorityFilter := Some high; searchTerm := "";
              sortField := None; sortDirection := asc |} in
  visibleTasks (λ _, 0) c (slice initialWorld) `sublist_of` sampleTasks ∧
  id <$> visibleTasks (λ _, 0) c (slice initialWorld) = [1; 5].
Proof.
  intros c. split; [|reflexivity].
  exact (proj1 (proj2 (proj2 (visibleTasks_rows (λ _, 0) c (slice initialWorld))))
           eq_refl).
Defined.

Example visibleTasks_filtered_and_sorted :
  let c := {| statusFilter := Some pending; categoryFilter := Some work;
              priorityFilter := None; searchTerm := " ";
              sortField := Some FieldTitle; sortDirection := desc |} in
  id <$> visibleTasks (λ _, 0) c (slice initialWorld) = [3; 1].
Proof. reflexivity. Qed.

Lemma moveTask_perm (j k : nat) (t : Task) (l : list Task) :
  l !! j = Some t → moveTask j k t l ≡ₚ l.
Proof.
  intros Hj. unfold moveTask.
  rewrite <- Permutation_middle, take_drop.
  symmetry. by apply delete_Permutation.
Qed.

Lemma moveTask_lookup (j k : nat) (t : Task) (l : list Task) :
  l !! j = Some t → (k < length l)%nat → moveTask j k t l !! k = Some t.
Proof.
  intros Hj Hk. unfold moveTask. apply list_lookup_middle.
  rewrite length_take, length_delete by eauto. lia.
Qed.

Lemma updateTaskOrder_listed_distinct (order : list Task) (w : World) :
  Z.of_nat (length order) ≤ MAX_SAFE_INTEGER →
  NoDup (taskIds (slice w)) → NoDup (id <$> order) →
  (∀ t, t ∈ order → t ∈ tasks (slice w)) →
  tasks (slice (updateTaskOrder (id <$> order) w))
  = order ++ filter (λ t, id t ∉ id <$> order) (tasks (slice w)).
Proof.
  intros Hlen Hts Horder Hsub.
  rewrite updateTaskOrder_tasks by (by rewrite length_fmap).
  by rewrite listedTasks_of_distinct.
Qed.

(** X23: dropping a dragged row on another row.  With distinct ids, when
    both rows are shown the handler takes the dragged task out of the rows
    and puts it back at the index the target row had; the collection then
    holds the rows in that new order, followed by the tasks that were not
    shown, in their previous order.  When the rows are the whole
    collection, the collection is the rows with the task moved. *)
Theorem drag_moves_task (getTime : string → Z) (c : ListControls) (w : World)
    (dragged target : Z) (j k : nat) :
  Z.of_nat (length (tasks (slice w))) ≤ MAX_SAFE_INTEGER →
  NoDup (taskIds (slice w)) →
  dragged ≠ target →
  findIndex dragged (visibleTasks getTime c (slice w)) = Some j →
  findIndex target (visibleTasks getTime c (slice w)) = Some k →
  ∃ t,
    visibleTasks getTime c (slice w) !! j = Some t ∧ id t = dragged ∧
    tasks (slice (handleDragOver getTime c (Some dragged) target w))
    = moveTask j k t (visibleTasks getTime c (slice w))
      ++ filter (λ u, id u ∉ id <$> visibleTasks getTime c (slice w))
                (tasks (slice w)) ∧
    moveTask j k t (visibleTasks getTime c (slice w)) !! k = Some t ∧
    moveTask j k t (visibleTasks getTime c (slice w))
    ≡ₚ visibleTasks getTime c (slice w) ∧
    (visibleTasks getTime c (slice w) = tasks (slice w) →
     tasks (slice (handleDragOver getTime c (Some dragged) target w))
     = moveTask j k t (tasks (slice w))).
Proof.
  intros Hlen Hts Hne Hj Hk.
  set (v := visibleTasks getTime c (slice w)) in *.
  pose proof Hj as (t & Ht & Hid & _)%findIndex_Some.
  pose proof Hk as (u & Hu & _ & _)%findIndex_Some.
  exists t.
  assert (moveTask j k t v ≡ₚ v) as Hperm by (by apply moveTask_perm).
  assert (NoDup (id <$> v)) as Hv by (by apply visibleTasks_NoDup).
  assert (∀ x, x ∈ v → x ∈ tasks (slice w)) as Hsub.
  { intros x Hx. unfold v in Hx.
    rewrite visibleTasks_perm, filteredTasks_elem in Hx. tauto. }
  assert (length v ≤ length (tasks (slice w)))%nat as Hshort.
  { unfold v. rewrite visibleTasks_perm.
    apply sublist_length, filteredTasks_sublist. }
  assert (tasks (slice (handleDragOver getTime c (Some dragged) target w))
          = moveTask j k t v
            ++ filter (λ x, id x ∉ id <$> v) (tasks (slice w))) as Htasks.
  { unfold handleDragOver. rewrite decide_False by done.
    fold v. rewrite Hj, Hk, Ht.
    rewrite updateTaskOrder_listed_distinct.
    - f_equal. apply list_filter_iff. intros x. by rewrite Hperm.
    - rewrite Hperm. lia.
    - done.
    - by rewrite Hperm.
    - intros x Hx. apply Hsub. by rewrite <- Hperm. }
  split_and!; try done.
  - apply moveTask_lookup; [done|]. by eapply lookup_lt_Some.
  - intros Hall. rewrite Htasks, Hall. rewrite filter_none; [by rewrite app_nil_r|].
    intros x Hx Hout. apply Hout. apply list_elem_of_fmap. by exists x.
Qed.

Lemma drag_moves_task_witness :
  taskIds (slice (handleDragOver (λ _, 0) noControls (Some 6) 2 initialWorld))
  = [1; 6; 2; 3; 4; 5; 7].
Proof.
  assert (Z.of_nat (length (tasks (slice initialWorld))) ≤ MAX_SAFE_INTEGER)
    as Hlen by (vm_compute; discriminate).
  assert (NoDup (taskIds (slice initialWorld))) as Hts
    by exact (proj1 idsWellFormed_sample).
  assert ((6 : Z) ≠ 2) as Hne by discriminate.
  destruct (drag_moves_task (λ _, 0) noControls initialWorld 6 2 5 1
              Hlen Hts Hne eq_refl eq_refl)
    as (t & Ht & _ & _ & _ & _ & Hall).
  unfold taskIds. rewrite (Hall eq_refl).
  change (visibleTasks (λ _, 0) noControls (slice initialWorld)) with sampleTasks in Ht.
  injection Ht as <-. reflexivity.
Defined.

Example drag_under_a_filter :
  let c := {| statusFilter := Some completed; categoryFilter := None;
              priorityFilter := None; searchTerm := "";
              sortField := None; sortDirection := asc |} in
  taskIds (slice (handleDragOver (λ _, 0) c (Some 6) 2 initialWorld))
  = [6; 2; 1; 3; 4; 5; 7].
Proof. reflexivity. Qed.

(** X24: a drop that changes nothing.  The handler returns the world
    untouched, dispatching no action and writing nothing, when no row is
    being dragged, when the row is dropped on itself, and when the dragged
    or the target task is not among the rows shown. *)
Theorem drag_without_effect (getTime : string → Z) (c : ListControls)
    (w : World) (target : Z) :
  handleDragOver getTime c None target w = w ∧
  handleDragOver getTime c (Some target) target w = w ∧
  (∀ dragged,
     dragged ∉ id <$> visibleTasks getTime c (slice w) ∨
     target ∉ id <$> visibleTasks getTime c (slice w) →
     handleDragOver getTime c (Some dragged) target w = w).
Proof.
  split_and!; [done|..].
  - unfold handleDragOver. by rewrite decide_True.
  - intros dragged Hhidden. unfold handleDragOver.
    destruct (decide (dragged = target)); [done|].
    assert (∀ i l, i ∉ id <$> l → findIndex i l = None) as Hnone.
    { intros i l Hout. apply findIndex_None. intros t Ht Hid. apply Hout.
      apply list_elem_of_fmap. by exists t. }
    destruct Hhidden as [Hout|Hout]; rewrite (Hnone _ _ Hout); [done|].
    by destruct (findIndex dragged _).
Qed.

Lemma drag_without_effect_witness :
  let c := {| statusFilter := Some completed; categoryFilter := None;
              priorityFilter := None; searchTerm := "";
              sortField := None; sortDirection := asc |} in
  handleDragOver (λ _, 0) c (Some 6) 1 initialWorld = initialWorld.
Proof.
  intros c.
  apply (proj2 (proj2 (drag_without_effect (λ _, 0) c initialWorld 1)) 6).
  right. intros Hin. apply list_elem_of_In in Hin. vm_compute in Hin.
  destruct Hin as [Hin|[Hin|[]]]; discriminate Hin.
Defined.

(** ** The forms *)

Lemma mergeTask_formPatch (t : Task) (i : Z) (data : TaskFields) :
  mergeTask t (formPatch i data) = makeTask i data.
Proof. done. Qed.

(** X25: submitting the edit form.  When the edited task is still in the
    collection, the first task with its id is replaced by the form's data
    under the same id, at the same position, and the ids of the collection
    are as before; when it is no longer there, nothing happens: the form
    does not bring the task back. *)
Theorem taskFormSubmit_edit (task : Task) (data : TaskFields) (w : World) :
  (id task ∈ taskIds (slice w) →
   selectTaskById (id task) (slice (taskFormSubmit (Some task) data w))
   = Some (makeTask (id task) data) ∧
   taskIds (slice (taskFormSubmit (Some task) data w)) = taskIds (slice w) ∧
   ∃ k, findIndex (id task) (tasks (slice w)) = Some k ∧
        tasks (slice (taskFormSubmit (Some task) data w))
        = <[k := makeTask (id task) data]> (tasks (slice w))) ∧
  (id task ∉ taskIds (slice w) → taskFormSubmit (Some task) data w = w).
Proof.
  unfold taskFormSubmit. split.
  - intros Hin.
    destruct (selectTaskById (id task) (slice w)) as [t|] eqn:Hsel;
      [|by apply selectTaskById_None in Hsel].
    apply selectTaskById_Some in Hsel as (k & Hk & Ht).
    pose proof (updateTask_found w (formPatch (id task) data) k t Hk Ht) as Hupd.
    rewrite mergeTask_formPatch in Hupd.
    split_and!.
    + rewrite Hupd. apply (selectTaskById_lookup _ _ k); simpl.
      * rewrite (findIndex_insert_same_id _ _ k t); [done..|].
        by apply findIndex_Some in Hk as (u & ? & ? & _); simplify_eq.
      * apply list_lookup_insert_eq. by eapply lookup_lt_Some.
    + apply updateTask_ids.
    + exists k. by rewrite Hupd.
  - intros Hout. apply selectTaskById_None, fmap_None in Hout.
    unfold updateTask, findIndex. simpl. by rewrite Hout.
Qed.

Lemma taskFormSubmit_edit_witness :
  let task := makeTask 3 someFields in
  selectTaskById 3 (slice (taskFormSubmit (Some task) someFields initialWorld))
  = Some task ∧
  taskFormSubmit (Some (makeTask 30 someFields)) someFields initialWorld
  = initialWorld.
Proof.
  intros task. split.
  - apply (proj1 (taskFormSubmit_edit task someFields initialWorld)).
    apply list_elem_of_In. vm_compute. tauto.
  - apply (proj2 (taskFormSubmit_edit (makeTask 30 someFields) someFields
                    initialWorld)).
    apply selectTaskById_None. reflexivity.
Defined.

(** X26: a task added through [AddTaskForm] is pending: it comes last in
    the collection with the form's title, deadline, category and priority,
    and the statistics afterwards count one more task and one more pending
    task, and the same number of completed tasks. *)
Theorem addTaskFormSubmit_adds_pending (data : AddTaskFormInputs) (w : World) :
  (∃ newTask,
     tasks (slice (addTaskFormSubmit data w)) = tasks (slice w) ++ [newTask] ∧
     status newTask = pending ∧ title newTask = inputTitle data ∧
     deadline newTask = inputDeadline data ∧
     category newTask = inputCategory data ∧
     priority newTask = inputPriority data) ∧
  totalTasks (selectTaskStatistics (slice (addTaskFormSubmit data w)))
  = totalTasks (selectTaskStatistics (slice w)) + 1 ∧
  pendingTasks (selectTaskStatistics (slice (addTaskFormSubmit data w)))
  = pendingTasks (selectTaskStatistics (slice w)) + 1 ∧
  completedTasks (selectTaskStatistics (slice (addTaskFormSubmit data w)))
  = completedTasks (selectTaskStatistics (slice w)).
Proof.
  unfold addTaskFormSubmit.
  set (fields := {| newTitle := inputTitle data; newStatus := pending;
                    newDeadline := inputDeadline data;
                    newCategory := inputCategory data;
                    newPriority := inputPriority data |}).
  destruct (addTask_new_task fields w) as (newId & Htasks & _).
  split.
  - exists (makeTask newId fields). by rewrite Htasks.
  - unfold selectTaskStatistics. simpl. rewrite Htasks.
    rewrite filter_app, !length_app, filter_cons. simpl. split_and!; lia.
Qed.

(** ** Overdue tasks *)

Lemma length_filter_le {A} (P Q : A → Prop) `{HPdec : !∀ x, Decision (P x)}
    `{HQdec : !∀ x, Decision (Q x)} (l : list A) :
  (∀ x, P x → Q x) → (length (filter P l) ≤ length (filter Q l))%nat.
Proof.
  intros HPQ. induction l as [|x l IH]; [done|].
  rewrite !filter_cons. destruct (decide (P x)) as [HP|HP].
  - rewrite decide_True by auto. simpl. lia.
  - destruct (decide (Q x)); simpl; lia.
Qed.

(** X27: only pending tasks are overdue: [overdueCount] never exceeds
    [pendingTasks], it is zero when every task is completed, and it does
    not fall as the clock advances. *)
Theorem overdueCount_bounds (getTime : string → Z) (today : Z) (s : TasksState) :
  0 ≤ overdueCount getTime today s ≤ pendingTasks (selectTaskStatistics s) ∧
  (selectTasksByStatus pending s = [] → overdueCount getTime today s = 0) ∧
  (∀ later, today ≤ later →
            overdueCount getTime today s ≤ overdueCount getTime later s).
Proof.
  assert (pendingTasks (selectTaskStatistics s)
          = Z.of_nat (length (filter (λ t, status t = pending) (tasks s)))) as Hpending.
  { unfold selectTaskStatistics. simpl.
    assert (filter (λ t, status t = pending) (tasks s)
            ++ filter (λ t, status t = completed) (tasks s) ≡ₚ tasks s) as Hperm.
    { apply filter_complement_perm.
      intros t. destruct (status t); split; (done || congruence). }
    rewrite <- Hperm at 1. rewrite length_app. lia. }
  assert (length (filter (λ t, status t = pending ∧ (getTime (deadline t) < today)%Z)
                         (tasks s))
          ≤ length (filter (λ t, status t = pending) (tasks s)))%nat as Hle
    by (apply length_filter_le; tauto).
  unfold overdueCount. split_and!.
  - lia.
  - rewrite Hpending. lia.
  - unfold selectTasksByStatus. intros Hnone. rewrite Hnone in Hle.
    simpl in Hle. lia.
  - intros later Hlater. apply inj_le, length_filter_le.
    intros t [? ?]. split; [done|lia].
Qed.

Lemma overdueCount_bounds_witness :
  let days (d : string) : Z :=
    if bool_decide (d = "2025-04-01") then 90
    else if bool_decide (d = "2025-04-05") then 94
    else if bool_decide (d = "2025-04-10") then 99
    else if bool_decide (d = "2025-04-15") then 104
    else if bool_decide (d = "2025-04-20") then 109
    else if bool_decide (d = "2025-05-10") then 129
    else 151 in
  overdueCount days 100 (slice initialWorld)
  ≤ overdueCount days 105 (slice initialWorld).
Proof.
  intros days.
  apply (proj2 (proj2 (overdueCount_bounds days 100 (slice initialWorld))) 105).
  vm_compute. discriminate.
Defined.

Example overdueCount_sample :
  let days (d : string) : Z :=
    if bool_decide (d = "2025-04-01") then 90
    else if bool_decide (d = "2025-04-05") then 94
    else if bool_decide (d = "2025-04-10") then 99
    else if bool_decide (d = "2025-04-15") then 104
    else if bool_decide (d = "2025-04-20") then 109
    else if bool_decide (d = "2025-05-10") then 129
    else 151 in
  overdueCount days 100 (slice initialWorld) = 2 ∧
  overdueCount days 105 (slice initialWorld) = 3.
Proof. split; reflexivity. Qed.
